(** * OSKAR correlation kernels: a shallow embedding and its properties

    The development follows the C sources:
    - [interferometry/src/oskar_correlate_gaussian_omp.c]
      (Gaussian-source correlator, single and double precision),
    - [correlate/src/oskar_evaluate_average_scalar_cross_power_beam_omp.c]
      (average scalar cross-power beam),
    - [station/src/oskar_station_override_element_xy_position_errors.c]
      (recursive override of element position errors).

    C [int] values are integers of [Z] with the 32-bit two's-complement
    wrap-around written out at every arithmetic operator.  Floating-point
    values are kept abstract behind an interface of operations, which is
    instantiated with the exact real numbers and with IEEE binary64. *)

From Stdlib Require Import ZArith List Bool Lia.
From Stdlib Require Import Reals Lra.
From Stdlib Require Import PrimFloat Uint63.
Import ListNotations.

Set Implicit Arguments.
Set Warnings "-register-all".
Open Scope Z_scope.

(** * Part I: the embedding *)

(** ** C [int] arithmetic *)

Module CInt.

Definition INT_MAX : Z := 2147483647.
Definition INT_MIN : Z := -2147483648.

(** Reduction of an integer to the 32-bit signed range. *)
Definition wrap (z : Z) : Z := (z + 2147483648) mod 4294967296 - 2147483648.

Definition in_range (z : Z) : Prop := INT_MIN <= z <= INT_MAX.

Definition add (a b : Z) : Z := wrap (a + b).
Definition sub (a b : Z) : Z := wrap (a - b).
Definition mul (a b : Z) : Z := wrap (a * b).
(** C division truncates towards zero. *)
Definition div (a b : Z) : Z := wrap (Z.quot a b).

End CInt.

(** ** Counted loops

    [for_loop lo hi body s] is [for (i = lo; i < hi; ++i) s = body i s].
    The counter never leaves the range of [int] when [hi] is an [int], so
    its increment is written without wrap-around. *)

Fixpoint iterate_from (S : Type) (n : nat) (i : Z) (body : Z -> S -> S) (s : S) : S :=
  match n with
  | O => s
  | Datatypes.S n' => iterate_from n' (i + 1) body (body i s)
  end.

Definition for_loop (S : Type) (lo hi : Z) (body : Z -> S -> S) (s : S) : S :=
  iterate_from (Z.to_nat (hi - lo)) lo body s.

(** ** Baseline indexing

    [oskar_correlate_gaussian_omp.c], lines 128-130 and 220-222:
    [i = station_q*(num_stations-1) - (station_q-1)*station_q/2 +
         station_p - station_q - 1;] *)

Definition vis_index (num_stations station_q station_p : Z) : Z :=
  CInt.sub
    (CInt.sub
       (CInt.add
          (CInt.sub
             (CInt.mul station_q (CInt.sub num_stations 1))
             (CInt.div (CInt.mul (CInt.sub station_q 1) station_q) 2))
          station_p)
       station_q)
    1.

(** The same formula over the unbounded integers. *)
Definition triangle (q : Z) : Z := Z.quot ((q - 1) * q) 2.

Definition row_start (n q : Z) : Z := q * (n - 1) - triangle q.

Definition ideal_index (n q p : Z) : Z := row_start n q + p - q - 1.

(** Number of baselines of [n] stations. *)
Definition total_baselines (n : Z) : Z := n * (n - 1) / 2.

(** ** Floating-point formats

    The kernels exist once per precision ([float], [double]) and use the
    arithmetic operators of C, the literals [0.0], [1.0], [2.0] (conversions
    of small integers), and [<math.h>].  They are written once over this
    interface. *)

Class FloatOps (F : Type) : Type := {
  of_int : Z -> F;
  fadd : F -> F -> F;
  fsub : F -> F -> F;
  fmul : F -> F -> F;
  fdiv : F -> F -> F;
  fneg : F -> F;
  feqb : F -> F -> bool
}.

(** [M_PI] / [M_PIf], [exp] / [expf], [sin] / [sinf]. *)
Class LibM (F : Type) : Type := {
  M_PI : F;
  fexp : F -> F;
  fsin : F -> F
}.

Declare Scope fl_scope.
Delimit Scope fl_scope with fl.
Notation "x + y" := (fadd x y) : fl_scope.
Notation "x - y" := (fsub x y) : fl_scope.
Notation "x * y" := (fmul x y) : fl_scope.
Notation "x / y" := (fdiv x y) : fl_scope.
Notation "- x" := (fneg x) : fl_scope.

(** ** Vector types ([float2]/[double2], [float4c]/[double4c]) *)

Module Vector.

Record complex2 (F : Type) : Type := mk2 { x : F; y : F }.

Record complex4c (F : Type) : Type :=
  mk4c { a : complex2 F; b : complex2 F; c : complex2 F; d : complex2 F }.

End Vector.

Import Vector.

(** ** Output arrays

    An array written by a kernel: its cells, and the indices written so far
    (latest first). *)

Record buffer (A : Type) : Type := { cells : Z -> A; writes : list Z }.

Definition store (A : Type) (buf : buffer A) (i : Z) (v : A) : buffer A :=
  {| cells := fun j => if Z.eqb j i then v else cells buf j;
     writes := i :: writes buf |}.

Section Kernels.

Context {F : Type} {ops : FloatOps F} {libm : LibM F}.

Local Open Scope fl_scope.

Definition zero2 : complex2 F := mk2 (of_int 0) (of_int 0).

Definition zero4c : complex4c F := mk4c zero2 zero2 zero2 zero2.

Definition add2 (u v : complex2 F) : complex2 F :=
  mk2 (x u + x v) (y u + y v).

Definition add4c (m n : complex4c F) : complex4c F :=
  mk4c (add2 (a m) (a n)) (add2 (b m) (b n)) (add2 (c m) (c n)) (add2 (d m) (d n)).

Definition mul2 (u v : complex2 F) : complex2 F :=
  mk2 (x u * x v - y u * y v) (x u * y v + y u * x v).

Definition conj2 (u : complex2 F) : complex2 F := mk2 (x u) (- y u).

Definition scale2 (r : F) (u : complex2 F) : complex2 F := mk2 (x u * r) (y u * r).

Definition scale4c (r : F) (m : complex4c F) : complex4c F :=
  mk4c (scale2 r (a m)) (scale2 r (b m)) (scale2 r (c m)) (scale2 r (d m)).

(** Product of 2x2 complex matrices. *)
Definition mul4c (m n : complex4c F) : complex4c F :=
  mk4c (add2 (mul2 (a m) (a n)) (mul2 (b m) (c n)))
       (add2 (mul2 (a m) (b n)) (mul2 (b m) (d n)))
       (add2 (mul2 (c m) (a n)) (mul2 (d m) (c n)))
       (add2 (mul2 (c m) (b n)) (mul2 (d m) (d n))).

(** Hermitian (conjugate) transpose. *)
Definition hermitian4c (m : complex4c F) : complex4c F :=
  mk4c (conj2 (a m)) (conj2 (c m)) (conj2 (b m)) (conj2 (d m)).

(** Modelled from the spec: [oskar_sinc_f] / [oskar_sinc_d] of
    [oskar_sinc.h], which is absent.  "normalized_sinc(x) = sin(pi x)/(pi x),
    with normalized_sinc(0) = 1 exactly (no division-by-zero)". *)
Definition oskar_sinc (v : F) : F :=
  if feqb v (of_int 0) then of_int 1 else fsin (M_PI * v) / (M_PI * v).

(** Modelled from the spec: the source brightness matrix built from the
    Stokes parameters in [oskar_accumulate_baseline_visibility_for_source.h],
    which is absent ("the Stokes-derived brightness matrix from (I,Q,U,V)"). *)
Definition brightness (sI sQ sU sV : F) : complex4c F :=
  mk4c (mk2 (sI + sQ) (of_int 0)) (mk2 sU sV)
       (mk2 sU (- sV)) (mk2 (sI - sQ) (of_int 0)).

(** Modelled from the spec: the per-source term [J_p . Brightness . J_q^H]
    of the same absent header, before it is scaled by the weight. *)
Definition source_term (i : Z) (source_I source_Q source_U source_V : Z -> F)
    (sp sq : Z -> complex4c F) : complex4c F :=
  mul4c (mul4c (sp i) (brightness (source_I i) (source_Q i) (source_U i) (source_V i)))
        (hermitian4c (sq i)).

(** Modelled from the spec: [oskar_accumulate_baseline_visibility_for_source_d]
    of the absent header: the term, scaled by the weight, is added into
    the local accumulator; the double-precision path has no guard. *)
Definition oskar_accumulate_baseline_visibility_for_source_d
    (sum : complex4c F) (i : Z) (source_I source_Q source_U source_V : Z -> F)
    (sp sq : Z -> complex4c F) (smearing : F) : complex4c F :=
  add4c sum (scale4c smearing (source_term i source_I source_Q source_U source_V sp sq)).

(** Modelled from the spec: one step of the compensated (Kahan-style)
    summation named by the spec for the single-precision path: the running
    sum and its guard after [val] is added. *)
Definition kahan_add (sum guard val : F) : F * F :=
  let y := val - guard in
  let t := sum + y in
  let guard := (t - sum) - y in
  (t, guard).

Definition kahan_add2 (sum guard val : complex2 F) : complex2 F * complex2 F :=
  let '(sx, gx) := kahan_add (x sum) (x guard) (x val) in
  let '(sy, gy) := kahan_add (y sum) (y guard) (y val) in
  (mk2 sx sy, mk2 gx gy).

Definition kahan_add4c (sum guard val : complex4c F) : complex4c F * complex4c F :=
  let '(sa, ga) := kahan_add2 (a sum) (a guard) (a val) in
  let '(sb, gb) := kahan_add2 (b sum) (b guard) (b val) in
  let '(sc, gc) := kahan_add2 (c sum) (c guard) (c val) in
  let '(sd, gd) := kahan_add2 (d sum) (d guard) (d val) in
  (mk4c sa sb sc sd, mk4c ga gb gc gd).

(** Modelled from the spec: [oskar_accumulate_baseline_visibility_for_source_f]
    of the absent header: as the double-precision primitive, with the
    accumulation compensated through the guard passed by the caller. *)
Definition oskar_accumulate_baseline_visibility_for_source_f
    (sum : complex4c F) (i : Z) (source_I source_Q source_U source_V : Z -> F)
    (sp sq : Z -> complex4c F) (smearing : F) (guard : complex4c F)
    : complex4c F * complex4c F :=
  kahan_add4c sum guard
    (scale4c smearing (source_term i source_I source_Q source_U source_V sp sq)).

End Kernels.

(** ** The Gaussian-source correlator
    ([interferometry/src/oskar_correlate_gaussian_omp.c]) *)

(** [&arr[k]]: the array seen from element [k] on. *)
Definition offset (A : Type) (arr : Z -> A) (k : Z) : Z -> A := fun i => arr (k + i).

Section Gaussian.

Context {F : Type} {ops : FloatOps F} {libm : LibM F}.

Local Open Scope fl_scope.

Variables (num_sources num_stations : Z).
Variable jones : Z -> complex4c F.
Variables source_I source_Q source_U source_V : Z -> F.
Variables source_l source_m source_a source_b source_c : Z -> F.
Variables station_u station_v : Z -> F.
Variables inv_wavelength frac_bandwidth : F.

(** Lines 91-103 (and 183-195): the baseline lengths, the quantities of
    the Gaussian term, and the rescaled lengths, in the order of the
    assignments.  The result is [(uu, vv, uu2, vv2, uuvv)] as the source
    loop reads them. *)
Definition baseline_terms (station_q station_p : Z) : F * F * F * F * F :=
  let uu := (station_u station_p - station_u station_q) * inv_wavelength in
  let vv := (station_v station_p - station_v station_q) * inv_wavelength in
  let uu2 := uu * uu in
  let vv2 := vv * vv in
  let uuvv := of_int 2 * uu * vv in
  let uu := uu * (M_PI * frac_bandwidth) in
  let vv := vv * (M_PI * frac_bandwidth) in
  (uu, vv, uu2, vv2, uuvv).

(** Lines 108-120 (and 200-212): the weight [r1] handed to the
    accumulation primitive for source [i]. *)
Definition source_weight (terms : F * F * F * F * F) (i : Z) : F :=
  let '(uu, vv, uu2, vv2, uuvv) := terms in
  let l := source_l i in
  let m := source_m i in
  let r1 := oskar_sinc (uu * l + vv * m) in
  let r2 := fexp (- (source_a i * uu2 + source_b i * uuvv + source_c i * vv2)) in
  let r1 := r1 * r2 in
  r1.

(** Lines 69-126: the local accumulator and its guard after the loop over
    sources, for the baseline of stations [station_q] and [station_p]. *)
Definition baseline_sum_f (station_q station_p : Z) : complex4c F * complex4c F :=
  let sq := offset jones (CInt.mul station_q num_sources) in
  let sum := zero4c in
  let guard := zero4c in
  let sp := offset jones (CInt.mul station_p num_sources) in
  let terms := baseline_terms station_q station_p in
  for_loop 0 num_sources
    (fun i acc =>
       let r1 := source_weight terms i in
       oskar_accumulate_baseline_visibility_for_source_f (fst acc) i
         source_I source_Q source_U source_V sp sq r1 (snd acc))
    (sum, guard).

(** Lines 47-143. *)
Definition oskar_correlate_gaussian_omp_f (vis : buffer (complex4c F))
    : buffer (complex4c F) :=
  for_loop 0 num_stations
    (fun station_q vis =>
       for_loop (station_q + 1) num_stations
         (fun station_p vis =>
            let sum := fst (baseline_sum_f station_q station_p) in
            let i := vis_index num_stations station_q station_p in
            store vis i (add4c (cells vis i) sum))
         vis)
    vis.

(** Lines 169-218: the local accumulator after the loop over sources;
    there is no guard. *)
Definition baseline_sum_d (station_q station_p : Z) : complex4c F :=
  let sq := offset jones (CInt.mul station_q num_sources) in
  let sum := zero4c in
  let sp := offset jones (CInt.mul station_p num_sources) in
  let terms := baseline_terms station_q station_p in
  for_loop 0 num_sources
    (fun i sum =>
       let r1 := source_weight terms i in
       oskar_accumulate_baseline_visibility_for_source_d sum i
         source_I source_Q source_U source_V sp sq r1)
    sum.

(** Lines 146-235. *)
Definition oskar_correlate_gaussian_omp_d (vis : buffer (complex4c F))
    : buffer (complex4c F) :=
  for_loop 0 num_stations
    (fun station_q vis =>
       for_loop (station_q + 1) num_stations
         (fun station_p vis =>
            let sum := baseline_sum_d station_q station_p in
            let i := vis_index num_stations station_q station_p in
            store vis i (add4c (cells vis i) sum))
         vis)
    vis.

End Gaussian.

(** ** The average scalar cross-power beam
    ([correlate/src/oskar_evaluate_average_scalar_cross_power_beam_omp.c]) *)

Section CrossPowerBeam.

Context {F : Type} {ops : FloatOps F}.

Local Open Scope fl_scope.

(** Modelled from the spec: the macro [OSKAR_MULTIPLY_ADD_COMPLEX_CONJUGATE]
    of [oskar_correlate_functions_inline.h], which is absent: "the inner
    multiply-accumulate-conjugate primitive", [val += p * conj(q)]. *)
Definition OSKAR_MULTIPLY_ADD_COMPLEX_CONJUGATE (val p q : complex2 F) : complex2 F :=
  add2 val (mul2 p (conj2 q)).

(** Lines 48-78 (and 97-127): the value stored for source [i]. *)
Definition cross_power_at (num_sources num_stations : Z)
    (jones : Z -> complex2 F) (norm : F) (i : Z) : complex2 F :=
  let val1 := zero2 in
  let val1 :=
    for_loop 0 num_stations
      (fun SP val1 =>
         let p := jones (CInt.add (CInt.mul SP num_sources) i) in
         let val2 := zero2 in
         let val2 :=
           for_loop (SP + 1) num_stations
             (fun SQ val2 =>
                let q := jones (CInt.add (CInt.mul SQ num_sources) i) in
                OSKAR_MULTIPLY_ADD_COMPLEX_CONJUGATE val2 p q)
             val2 in
         mk2 (x val1 + x val2) (y val1 + y val2))
      val1 in
  mk2 (x val1 * norm) (y val1 * norm).

(** Line 43 (and 92): [norm = 2.0 / (num_stations * (num_stations - 1))];
    the product is an [int] product, converted for the division. *)
Definition beam_norm (num_stations : Z) : F :=
  of_int 2 / of_int (CInt.mul num_stations (CInt.sub num_stations 1)).

(** Lines 37-83 and 86-132: both precisions have this text, at their own
    format [F]. *)
Definition oskar_evaluate_average_scalar_cross_power_beam_omp
    (num_sources num_stations : Z) (jones : Z -> complex2 F)
    (beam : buffer (complex2 F)) : buffer (complex2 F) :=
  let norm := beam_norm num_stations in
  for_loop 0 num_sources
    (fun i beam => store beam i (cross_power_at num_sources num_stations jones norm i))
    beam.

End CrossPowerBeam.

(** ** Overriding element position errors
    ([station/src/oskar_station_override_element_xy_position_errors.c]) *)

(** A block of memory holding numbers ([oskar_Mem]).  Reading past the end
    of a C array is undefined; here it yields the default, and a store past
    the end is dropped. *)
Record oskar_Mem (F : Type) : Type := { mem_type : Z; mem_data : list F }.

Fixpoint list_set (A : Type) (l : list A) (n : nat) (v : A) : list A :=
  match l, n with
  | [], _ => []
  | _ :: t, O => v :: t
  | h :: t, S n' => h :: list_set t n' v
  end.

(** Modelled from the spec: the station structure of [private_station.h],
    which is absent ("child stations owning element arrays": "a tree", with
    "leaf detection via an explicit has-children flag").  [child] is the
    array of child stations, [None] for a null pointer. *)
Inductive oskar_Station (F : Type) : Type :=
  mk_station {
    location : Z;
    element_type : Z;
    num_elements : Z;
    x_signal : oskar_Mem F;
    y_signal : oskar_Mem F;
    x_weights : oskar_Mem F;
    y_weights : oskar_Mem F;
    child : option (list (oskar_Station F))
  }.

(** What the function takes from the headers that are absent: the constants
    of [oskar_global.h], the status written by the typed accessors of
    [oskar_mem], the Gaussian generator (which returns [delta_x], stores
    [delta_y] and advances its hidden state), and the setter of the
    invalid-argument status. *)
Class StationEnv (F : Type) : Type := {
  OSKAR_LOCATION_CPU : Z;
  OSKAR_DOUBLE : Z;
  OSKAR_SINGLE : Z;
  OSKAR_ERR_BAD_LOCATION : Z;
  rng : Type;
  oskar_random_gaussian : rng -> F * F * rng;
  oskar_mem_double : oskar_Mem F -> Z -> Z;
  oskar_mem_float : oskar_Mem F -> Z -> Z;
  oskar_set_invalid_argument : option Z -> option Z
}.

Section StationOverride.

Context {F : Type} {ops : FloatOps F} {env : StationEnv F}.

Local Open Scope fl_scope.

Definition oskar_station_location (s : oskar_Station F) : Z := location s.

Definition oskar_station_type (s : oskar_Station F) : Z := element_type s.

Definition oskar_station_has_child (s : oskar_Station F) : bool :=
  match child s with Some _ => true | None => false end.

(** Lines 82-90 and 99-107: [xs] and [ys] are overwritten element by
    element from [xw], [yw] and fresh random offsets. *)
Definition override_elements (n : Z) (position_error_xy_m : F)
    (xs ys xw yw : list F) (g : rng) : list F * list F * rng :=
  for_loop 0 n
    (fun i st =>
       let '(xs, ys, g) := st in
       let '(delta_x, delta_y, g) := oskar_random_gaussian g in
       let delta_x := delta_x * position_error_xy_m in
       let delta_y := delta_y * position_error_xy_m in
       (list_set xs (Z.to_nat i) (nth (Z.to_nat i) xw (of_int 0) + delta_x),
        list_set ys (Z.to_nat i) (nth (Z.to_nat i) yw (of_int 0) + delta_y),
        g))
    (xs, ys, g).

(** Lines 63-67: the calls on the children [0 .. n-1], in order, each
    with the status left by the one before.  (An [n] beyond the end of the
    child array, which the C loop would read out of bounds, stops at the
    last child.) *)
Fixpoint visit_children
    (visit : oskar_Station F -> Z -> rng -> oskar_Station F * Z * rng)
    (cs : list (oskar_Station F)) (n : nat) (status : Z) (g : rng)
    {struct cs} : list (oskar_Station F) * Z * rng :=
  match cs, n with
  | c :: rest, S n' =>
      let '(c', status, g) := visit c status g in
      let '(rest', status, g) := visit_children visit rest n' status g in
      (c' :: rest', status, g)
  | _, _ => (cs, status, g)
  end.

(** Lines 49-109: the function from its status check on, for a station
    and a status that are not null. *)
Fixpoint override_element_xy_position_errors (s : oskar_Station F)
    (position_error_xy_m : F) (status : Z) (g : rng)
    {struct s} : oskar_Station F * Z * rng :=
  match s with
  | mk_station loc type n xsig ysig xwei ywei ch =>
      if negb (status =? 0) then (s, status, g)
      else if negb (loc =? OSKAR_LOCATION_CPU) then (s, OSKAR_ERR_BAD_LOCATION, g)
      else
        match ch with
        | Some cs =>
            let '(cs', status, g) :=
              visit_children
                (fun c => override_element_xy_position_errors c position_error_xy_m)
                cs (Z.to_nat n) status g in
            (mk_station loc type n xsig ysig xwei ywei (Some cs'), status, g)
        | None =>
            if type =? OSKAR_DOUBLE then
              let status := oskar_mem_double xsig status in
              let status := oskar_mem_double ysig status in
              let status := oskar_mem_double xwei status in
              let status := oskar_mem_double ywei status in
              let '(xs, ys, g) :=
                override_elements n position_error_xy_m (mem_data xsig)
                  (mem_data ysig) (mem_data xwei) (mem_data ywei) g in
              (mk_station loc type n
                 {| mem_type := mem_type xsig; mem_data := xs |}
                 {| mem_type := mem_type ysig; mem_data := ys |}
                 xwei ywei None, status, g)
            else if type =? OSKAR_SINGLE then
              let status := oskar_mem_float xsig status in
              let status := oskar_mem_float ysig status in
              let status := oskar_mem_float xwei status in
              let status := oskar_mem_float ywei status in
              let '(xs, ys, g) :=
                override_elements n position_error_xy_m (mem_data xsig)
                  (mem_data ysig) (mem_data xwei) (mem_data ywei) g in
              (mk_station loc type n
                 {| mem_type := mem_type xsig; mem_data := xs |}
                 {| mem_type := mem_type ysig; mem_data := ys |}
                 xwei ywei None, status, g)
            else (s, status, g)
        end
  end.

(** Lines 37-110, with the null checks of lines 43-47. *)
Definition oskar_station_override_element_xy_position_errors
    (s : option (oskar_Station F)) (position_error_xy_m : F)
    (status : option Z) (g : rng)
    : option (oskar_Station F) * option Z * rng :=
  match s, status with
  | Some st, Some e =>
      let '(st', e', g') :=
        override_element_xy_position_errors st position_error_xy_m e g in
      (Some st', Some e', g')
  | _, _ => (s, oskar_set_invalid_argument status, g)
  end.

End StationOverride.

(** ** Two formats

    The exact real numbers, where no operation rounds, and IEEE binary64
    ([double]). *)

Module ExactReal.

Definition Req_bool (u v : R) : bool := if Req_dec_T u v then true else false.

#[global] Instance real_ops : FloatOps R :=
  {| of_int := IZR; fadd := Rplus; fsub := Rminus; fmul := Rmult;
     fdiv := Rdiv; fneg := Ropp; feqb := Req_bool |}.

(** The literal [M_PI] stands for pi; no property below depends on its
    value. *)
#[global] Instance real_libm : LibM R :=
  {| M_PI := PI; fexp := exp; fsin := sin |}.

End ExactReal.

Module Binary64.

(** Conversion of an [int] to [double]; it is exact on 32-bit values. *)
Definition float_of_int (z : Z) : float :=
  match z with
  | Z0 => PrimFloat.zero
  | Zpos _ => PrimFloat.of_uint63 (Uint63.of_Z z)
  | Zneg p => PrimFloat.opp (PrimFloat.of_uint63 (Uint63.of_Z (Zpos p)))
  end.

#[global] Instance double_ops : FloatOps float :=
  {| of_int := float_of_int; fadd := PrimFloat.add; fsub := PrimFloat.sub;
     fmul := PrimFloat.mul; fdiv := PrimFloat.div; fneg := PrimFloat.opp;
     feqb := PrimFloat.eqb |}.

(** Lines 86-132. *)
Definition oskar_evaluate_average_scalar_cross_power_beam_omp_d
    (num_sources num_stations : Z) (jones : Z -> complex2 float)
    (beam : buffer (complex2 float)) : buffer (complex2 float) :=
  oskar_evaluate_average_scalar_cross_power_beam_omp num_sources num_stations jones beam.

End Binary64.

(** ** Doubling the sources *)

(** [dup] holds the [n] values of [orig] twice, one copy after the other. *)
Definition doubled (A : Type) (n : Z) (orig dup : Z -> A) : Prop :=
  forall i, 0 <= i < n -> dup i = orig i /\ dup (i + n) = orig i.

(** What a correlator does to the visibility buffer, given the local sum
    [contrib station_q station_p] it adds for each baseline (lines 58-67 and
    128-141). *)
Definition accumulate_baselines (F : Type) {ops : FloatOps F} (num_stations : Z)
    (contrib : Z -> Z -> complex4c F) (vis : buffer (complex4c F))
    : buffer (complex4c F) :=
  for_loop 0 num_stations
    (fun station_q vis =>
       for_loop (station_q + 1) num_stations
         (fun station_p vis =>
            let i := vis_index num_stations station_q station_p in
            store vis i (add4c (cells vis i) (contrib station_q station_p)))
         vis)
    vis.

Section WeightedTerm.

Context {F : Type} {ops : FloatOps F} {libm : LibM F}.

(** The term added for source [i]: the per-source term scaled by the weight. *)
Definition weighted_term (source_I source_Q source_U source_V : Z -> F)
    (source_l source_m source_a source_b source_c : Z -> F)
    (sp sq : Z -> complex4c F) (terms : F * F * F * F * F) (i : Z) : complex4c F :=
  scale4c (source_weight source_l source_m source_a source_b source_c terms i)
    (source_term i source_I source_Q source_U source_V sp sq).

End WeightedTerm.

(** ** A small scenario over the exact reals

    Three stations on a line, two unit sources at the phase centre, identity
    Jones matrices, zero bandwidth, and an output buffer of zeros. *)

Module Scenario.

Import ExactReal.

Definition identity4c : complex4c R :=
  mk4c (mk2 1%R 0%R) (mk2 0%R 0%R) (mk2 0%R 0%R) (mk2 1%R 0%R).

Definition jones : Z -> complex4c R := fun _ => identity4c.
Definition ones : Z -> R := fun _ => 1%R.
Definition zeros : Z -> R := fun _ => 0%R.
Definition station_u : Z -> R := fun k => IZR k.
Definition station_v : Z -> R := fun k => (2 * IZR k)%R.
Definition vis0 : buffer (complex4c R) := {| cells := fun _ => zero4c; writes := [] |}.
(** Two sources of flux 0 and 1, and the same two sources listed twice. *)
Definition flux : Z -> R := fun i => IZR i.
Definition flux_twice : Z -> R := fun i => IZR (i mod 2).

End Scenario.

(** ** A sample station tree in binary64

    The environment fixes values for the constants and simple stand-ins for
    the helpers that the headers would supply: a generator that counts, and
    typed accessors that flag a block of another type. *)

Module SampleStation.

#[global] Instance sample_env : StationEnv float :=
  {| OSKAR_LOCATION_CPU := 0;
     OSKAR_DOUBLE := 8;
     OSKAR_SINGLE := 4;
     OSKAR_ERR_BAD_LOCATION := -11;
     rng := Z;
     oskar_random_gaussian :=
       fun g => (Binary64.float_of_int g, Binary64.float_of_int (g + 1), g + 2);
     oskar_mem_double := fun m status => if mem_type m =? 8 then status else -6;
     oskar_mem_float := fun m status => if mem_type m =? 4 then status else -6;
     oskar_set_invalid_argument := option_map (fun _ => -3) |}.

Definition block (type : Z) (values : list Z) : oskar_Mem float :=
  {| mem_type := type; mem_data := map Binary64.float_of_int values |}.

Definition leaf (loc type : Z) (xs ys : list Z) : oskar_Station float :=
  mk_station loc type 2 (block type xs) (block type ys)
    (block type [10; 20]) (block type [30; 40]) None.

Definition cpu_leaf : oskar_Station float := leaf 0 8 [0; 0] [0; 0].
Definition gpu_leaf : oskar_Station float := leaf 1 8 [0; 0] [0; 0].
Definition int_leaf : oskar_Station float := leaf 0 1 [0; 0] [0; 0].

Definition parent (children : list (oskar_Station float)) : oskar_Station float :=
  mk_station 0 8 (Z.of_nat (length children)) (block 8 []) (block 8 [])
    (block 8 []) (block 8 []) (Some children).

Definition unit_error : float := Binary64.float_of_int 1.

End SampleStation.

Import SampleStation.

(** ** Doubling the sources in binary64

    Two stations one wavelength apart, zero bandwidth, point-like sources
    ([a = b = c = 0]) at the phase centre, identity Jones matrices; source
    fluxes [1] and [1.5 * 2^-53].  The weights are [exp(-0)], whatever the
    [exp] and [sin] of the C library are. *)

Module DoublingBinary64.

Definition pi64 : float := 0x1.921fb54442d18p+1%float.
Definition tiny : float := 0x1.8p-53%float.

Definition c_library (e s : float -> float) : LibM float :=
  {| M_PI := pi64; fexp := e; fsin := s |}.

Definition identity4c : complex4c float :=
  mk4c (mk2 PrimFloat.one PrimFloat.zero) (mk2 PrimFloat.zero PrimFloat.zero)
       (mk2 PrimFloat.zero PrimFloat.zero) (mk2 PrimFloat.one PrimFloat.zero).

Definition jones : Z -> complex4c float := fun _ => identity4c.
Definition zeros : Z -> float := fun _ => PrimFloat.zero.
Definition flux : Z -> float := fun i => if Z.even i then PrimFloat.one else tiny.
Definition station_u : Z -> float := Binary64.float_of_int.
Definition vis0 : buffer (complex4c float) := {| cells := fun _ => zero4c; writes := [] |}.

(** The run on the two sources, and the run on the two sources listed twice. *)
Definition single (e s : float -> float) : buffer (complex4c float) :=
  oskar_correlate_gaussian_omp_d (libm := c_library e s) 2 2 jones
    flux zeros zeros zeros zeros zeros zeros zeros zeros
    station_u zeros PrimFloat.one PrimFloat.zero vis0.

Definition twice (e s : float -> float) : buffer (complex4c float) :=
  oskar_correlate_gaussian_omp_d (libm := c_library e s) 4 2 jones
    flux zeros zeros zeros zeros zeros zeros zeros zeros
    station_u zeros PrimFloat.one PrimFloat.zero vis0.

End DoublingBinary64.

(** ** Definitions for the further properties *)

(** The indices [lo, lo+1, ..., lo+n-1] a counted loop runs through. *)
Fixpoint indices_from (lo : Z) (n : nat) : list Z :=
  match n with
  | O => []
  | S n' => lo :: indices_from (lo + 1) n'
  end.

(** Two arrays hold the same values at the indices [0 .. n-1]. *)
Definition agree_on (A : Type) (n : Z) (f g : Z -> A) : Prop :=
  forall i, 0 <= i < n -> f i = g i.

Section StationViews.

Context {F : Type} {ops : FloatOps F} {env : StationEnv F}.

(** The state of the generator after [k] draws. *)
Definition generator_after (g : rng) (k : nat) : rng :=
  Nat.iter k (fun g => snd (oskar_random_gaussian g)) g.

(** The offsets [(delta_x, delta_y)] of the draw made in state [g]. *)
Definition draw (g : rng) : F * F := fst (oskar_random_gaussian g).

Definition blank_mem (m : oskar_Mem F) : oskar_Mem F :=
  {| mem_type := mem_type m; mem_data := map (fun _ => of_int 0) (mem_data m) |}.

(** A station tree with the values of every signal array blanked: what is
    left is the structure, the locations, types and counts, the lengths of
    the signal arrays, and the weights arrays. *)
Fixpoint blank_signals (s : oskar_Station F) : oskar_Station F :=
  match s with
  | mk_station loc type n xsig ysig xwei ywei ch =>
      mk_station loc type n (blank_mem xsig) (blank_mem ysig) xwei ywei
        (match ch with
         | Some cs => Some (map blank_signals cs)
         | None => None
         end)
  end.

(** A property holds of the first [k] stations of a list. *)
Fixpoint first_children (R : oskar_Station F -> Prop)
    (cs : list (oskar_Station F)) (k : nat) {struct cs} : Prop :=
  match cs, k with
  | c :: rest, S k' => R c /\ first_children R rest k'
  | _, _ => True
  end.

(** Every station that the traversal reaches (a station, and the first
    [num_elements] children of a station with children) is in CPU memory. *)
Fixpoint reached_on_cpu (s : oskar_Station F) : Prop :=
  match s with
  | mk_station loc type n xsig ysig xwei ywei ch =>
      loc = OSKAR_LOCATION_CPU /\
      match ch with
      | Some cs => first_children reached_on_cpu cs (Z.to_nat n)
      | None => True
      end
  end.

End StationViews.

(** ** Sample data for the further properties *)

Module FurtherSamples.

Import ExactReal.

(** Station coordinates that follow [Scenario.station_u] for the three
    stations of the scenario and differ past them. *)
Definition station_u_beyond : Z -> R :=
  fun k => if (0 <=? k) && (k <? 3) then IZR k else 0%R.

(** Scalar Jones values for two stations and two sources; a second array
    that differs from it in the column of the second source only; and an
    array that holds the same value everywhere. *)
Definition scalar_jones : Z -> complex2 R := fun k => mk2 (IZR k) 1%R.

Definition scalar_jones_other : Z -> complex2 R :=
  fun k => if Z.even k then mk2 (IZR k) 1%R else mk2 0%R 0%R.

Definition uniform_jones : Z -> complex2 R := fun _ => mk2 3%R 4%R.

Definition beam0 : buffer (complex2 R) :=
  {| cells := fun _ => mk2 0%R 0%R; writes := [] |}.

(** The environment of [SampleStation], over the real numbers. *)
Definition real_env : StationEnv R :=
  {| OSKAR_LOCATION_CPU := 0;
     OSKAR_DOUBLE := 8;
     OSKAR_SINGLE := 4;
     OSKAR_ERR_BAD_LOCATION := -11;
     rng := Z;
     oskar_random_gaussian := fun g => (IZR g, IZR (g + 1), g + 2);
     oskar_mem_double := fun m status => if mem_type m =? 8 then status else -6;
     oskar_mem_float := fun m status => if mem_type m =? 4 then status else -6;
     oskar_set_invalid_argument := option_map (fun _ => -3) |}.

Definition real_leaf : oskar_Station R :=
  mk_station 0 8 2
    {| mem_type := 8; mem_data := [0%R; 0%R] |}
    {| mem_type := 8; mem_data := [0%R; 0%R] |}
    {| mem_type := 8; mem_data := [10%R; 20%R] |}
    {| mem_type := 8; mem_data := [30%R; 40%R] |} None.

End FurtherSamples.

(** * Part II: properties *)

(** ** Properties of the index formula over [Z] *)

Section IdealIndex.

Lemma triangle_double (q : Z) : 0 <= q -> 2 * triangle q = (q - 1) * q.
Proof.
  intros Hq. unfold triangle.
  assert (Hnn : 0 <= (q - 1) * q) by nia.
  rewrite Z.quot_div_nonneg by lia.
  assert (Hev : Z.even ((q - 1) * q) = true).
  { rewrite Z.even_mul, Z.even_sub. simpl.
    destruct (Z.even q); reflexivity. }
  apply Z.even_spec in Hev. destruct Hev as [k Hk].
  rewrite Hk. rewrite (Z.mul_comm 2 k), Z.div_mul by lia. lia.
Qed.

Lemma row_start_double (n q : Z) :
  0 <= q -> 2 * row_start n q = q * (2 * n - 1 - q).
Proof.
  intros Hq. unfold row_start.
  pose proof (triangle_double Hq). nia.
Qed.

Lemma total_baselines_double (n : Z) : 0 <= n -> 2 * total_baselines n = n * (n - 1).
Proof.
  intros Hn. unfold total_baselines.
  pose proof (@triangle_double n Hn) as H.
  replace (n * (n - 1)) with (triangle n * 2) by lia.
  rewrite Z.div_mul by lia. lia.
Qed.

Lemma row_start_succ (n q : Z) :
  0 <= q -> row_start n (q + 1) = row_start n q + (n - 1 - q).
Proof.
  intros Hq.
  pose proof (@row_start_double n q Hq).
  pose proof (@row_start_double n (q + 1) ltac:(lia)).
  nia.
Qed.

Lemma row_start_mono (n q q' : Z) :
  0 <= q <= q' -> q' <= n - 1 -> row_start n q <= row_start n q'.
Proof.
  intros Hq Hq'.
  pose proof (@row_start_double n q ltac:(lia)).
  pose proof (@row_start_double n q' ltac:(lia)).
  nia.
Qed.

Lemma row_start_last (n : Z) : 1 <= n -> row_start n (n - 1) = total_baselines n.
Proof.
  intros Hn.
  pose proof (@row_start_double n (n - 1) ltac:(lia)).
  pose proof (@total_baselines_double n ltac:(lia)).
  nia.
Qed.

Lemma ideal_index_range (n q p : Z) :
  0 <= q < p -> p < n -> 0 <= ideal_index n q p < total_baselines n.
Proof.
  intros Hq Hp. unfold ideal_index.
  pose proof (@row_start_mono n 0 q ltac:(lia) ltac:(lia)) as H0.
  pose proof (@row_start_mono n (q + 1) (n - 1) ltac:(lia) ltac:(lia)) as H1.
  rewrite row_start_succ in H1 by lia.
  rewrite row_start_last in H1 by lia.
  unfold row_start at 1 in H0. unfold triangle in H0. simpl in H0.
  lia.
Qed.

Lemma ideal_index_row (n q p q' p' : Z) :
  0 <= q < p -> p < n -> 0 <= q' < p' -> p' < n ->
  ideal_index n q p = ideal_index n q' p' -> q = q'.
Proof.
  intros Hq Hp Hq' Hp' E. unfold ideal_index in E.
  destruct (Z.lt_trichotomy q q') as [L | [L | L]]; [exfalso | exact L | exfalso].
  - pose proof (@row_start_mono n (q + 1) q' ltac:(lia) ltac:(lia)) as M.
    rewrite row_start_succ in M by lia. lia.
  - pose proof (@row_start_mono n (q' + 1) q ltac:(lia) ltac:(lia)) as M.
    rewrite row_start_succ in M by lia. lia.
Qed.

Lemma ideal_index_inj (n q p q' p' : Z) :
  0 <= q < p -> p < n -> 0 <= q' < p' -> p' < n ->
  ideal_index n q p = ideal_index n q' p' -> q = q' /\ p = p'.
Proof.
  intros Hq Hp Hq' Hp' E.
  assert (q = q') by (eapply ideal_index_row; eauto).
  subst q'. split; [reflexivity |]. unfold ideal_index in E. lia.
Qed.

(** Every slot below [row_start n m] lies in the block of some row
    [q < m]. *)
Lemma row_cover (n : Z) (m : nat) (k : Z) :
  Z.of_nat m <= n - 1 -> 0 <= k < row_start n (Z.of_nat m) ->
  exists q, 0 <= q < Z.of_nat m /\ row_start n q <= k < row_start n (q + 1).
Proof.
  induction m as [| m IH]; intros Hm Hk.
  - unfold row_start, triangle in Hk. simpl in Hk. lia.
  - replace (Z.of_nat (S m)) with (Z.of_nat m + 1) in * by lia.
    destruct (Z_lt_le_dec k (row_start n (Z.of_nat m))) as [L | L].
    + destruct IH as [q [Hq Hr]]; [lia | lia |].
      exists q. split; [lia | exact Hr].
    + exists (Z.of_nat m). split; [lia | lia].
Qed.

Lemma ideal_index_surj (n k : Z) :
  2 <= n -> 0 <= k < total_baselines n ->
  exists q p, 0 <= q < p /\ p < n /\ ideal_index n q p = k.
Proof.
  intros Hn Hk.
  rewrite <- row_start_last in Hk by lia.
  destruct (@row_cover n (Z.to_nat (n - 1)) k) as [q [Hq Hr]].
  - lia.
  - rewrite Z2Nat.id by lia. exact Hk.
  - rewrite Z2Nat.id in Hq by lia.
    rewrite row_start_succ in Hr by lia.
    exists q, (q + 1 + (k - row_start n q)).
    unfold ideal_index. lia.
Qed.

End IdealIndex.

(** ** Wrap-around lemmas *)

Section WrapAround.

Lemma wrap_small (z : Z) : CInt.in_range z -> CInt.wrap z = z.
Proof.
  unfold CInt.in_range, CInt.INT_MIN, CInt.INT_MAX, CInt.wrap. intros H.
  rewrite Z.mod_small by lia. lia.
Qed.

Lemma wrap_add_l (a b : Z) : CInt.wrap (CInt.wrap a + b) = CInt.wrap (a + b).
Proof.
  unfold CInt.wrap. f_equal.
  replace ((a + 2147483648) mod 4294967296 - 2147483648 + b + 2147483648)
    with ((a + 2147483648) mod 4294967296 + b) by lia.
  rewrite Z.add_mod_idemp_l by lia. f_equal; lia.
Qed.

Lemma wrap_sub_l (a b : Z) : CInt.wrap (CInt.wrap a - b) = CInt.wrap (a - b).
Proof.
  replace (CInt.wrap a - b) with (CInt.wrap a + (- b)) by lia.
  rewrite wrap_add_l. f_equal; lia.
Qed.

(** Where the product [(q-1)*q] fits an [int], the wrapped formula agrees
    with the formula over [Z] up to one final reduction. *)
Lemma vis_index_wrap (n q p : Z) :
  CInt.in_range (n - 1) -> 0 <= q -> (q - 1) * q <= CInt.INT_MAX ->
  vis_index n q p = CInt.wrap (ideal_index n q p).
Proof.
  intros Hn Hq Hprod.
  unfold vis_index, CInt.add, CInt.sub, CInt.mul, CInt.div.
  assert (Hq1 : CInt.in_range (q - 1)).
  { unfold CInt.in_range, CInt.INT_MIN, CInt.INT_MAX in *. nia. }
  assert (Hqq : CInt.in_range ((q - 1) * q)).
  { unfold CInt.in_range, CInt.INT_MIN, CInt.INT_MAX in *. nia. }
  pose proof (triangle_double Hq) as Ht.
  assert (Htri : CInt.in_range (triangle q)).
  { unfold CInt.in_range, CInt.INT_MIN, CInt.INT_MAX in *. nia. }
  rewrite (wrap_small Hn), (wrap_small Hq1), (wrap_small Hqq).
  fold (triangle q). rewrite (wrap_small Htri).
  rewrite (wrap_sub_l (q * (n - 1))).
  rewrite (wrap_add_l (q * (n - 1) - triangle q)).
  rewrite (wrap_sub_l (q * (n - 1) - triangle q + p)).
  rewrite (wrap_sub_l (q * (n - 1) - triangle q + p - q)).
  unfold ideal_index, row_start. f_equal; lia.
Qed.

Lemma vis_index_ideal (n q p : Z) :
  2 <= n <= 46343 -> 0 <= q < p -> p < n ->
  vis_index n q p = ideal_index n q p.
Proof.
  intros Hn Hq Hp.
  rewrite vis_index_wrap.
  - apply wrap_small.
    pose proof (@ideal_index_range n q p Hq Hp) as R.
    pose proof (@total_baselines_double n ltac:(lia)) as T.
    unfold CInt.in_range, CInt.INT_MIN, CInt.INT_MAX. nia.
  - unfold CInt.in_range, CInt.INT_MIN, CInt.INT_MAX. lia.
  - lia.
  - unfold CInt.INT_MAX. nia.
Qed.

End WrapAround.

Example vis_index_3_stations :
  map (fun qp => vis_index 3 (fst qp) (snd qp)) [(0, 1); (0, 2); (1, 2)] = [0; 1; 2].
Proof. reflexivity. Qed.

Example vis_index_5_stations :
  map (fun qp => vis_index 5 (fst qp) (snd qp))
      [(0, 1); (0, 2); (0, 3); (0, 4); (1, 2); (1, 3); (1, 4); (2, 3); (2, 4); (3, 4)]
  = [0; 1; 2; 3; 4; 5; 6; 7; 8; 9].
Proof. reflexivity. Qed.

(** The last station count served, and the first one that is not: up to
    46342 stations no intermediate value leaves the range of [int]; with
    46343 the product [station_q*(num_stations-1)] of the last row wraps and
    the later reductions undo it; with 46344 the product
    [(station_q-1)*station_q] wraps before it is halved. *)
Example vis_index_last_supported :
  vis_index 46343 46341 46342 = total_baselines 46343 - 1.
Proof. reflexivity. Qed.

Example vis_index_first_overflow :
  vis_index 46344 46342 46343 = -1073623653 /\
  ideal_index 46344 46342 46343 = 1073859995.
Proof. split; reflexivity. Qed.

(** C1 (as amended): for every station count from 2 up to 46343 (the
    largest one for which the product [(station_q-1)*station_q] still fits a
    32-bit [int]) the index computed by the correlator maps the pairs
    [0 <= q < p < num_stations] one-to-one onto
    [[0, num_stations*(num_stations-1)/2)]; within a row [q] consecutive
    [p] receive consecutive slots, the block of row [q+1] starts right
    after the block of row [q], the first block starts at slot 0 and the
    last one ends at the last slot. *)
Theorem vis_index_bijection (num_stations : Z) :
  2 <= num_stations <= 46343 ->
  (forall q p, 0 <= q < p -> p < num_stations ->
     0 <= vis_index num_stations q p < total_baselines num_stations) /\
  (forall q p q' p',
     0 <= q < p -> p < num_stations -> 0 <= q' < p' -> p' < num_stations ->
     vis_index num_stations q p = vis_index num_stations q' p' ->
     q = q' /\ p = p') /\
  (forall k, 0 <= k < total_baselines num_stations ->
     exists q p, 0 <= q < p /\ p < num_stations /\ vis_index num_stations q p = k) /\
  (forall q p, 0 <= q < p -> p < num_stations ->
     vis_index num_stations q p = vis_index num_stations q (q + 1) + (p - (q + 1))) /\
  vis_index num_stations 0 1 = 0 /\
  (forall q, 0 <= q -> q + 2 < num_stations ->
     vis_index num_stations (q + 1) (q + 2)
     = vis_index num_stations q (num_stations - 1) + 1) /\
  vis_index num_stations (num_stations - 2) (num_stations - 1)
  = total_baselines num_stations - 1.
Proof.
  intros Hn. repeat apply conj.
  - intros q p Hq Hp. rewrite vis_index_ideal by lia.
    apply ideal_index_range; lia.
  - intros q p q' p' Hq Hp Hq' Hp' E.
    rewrite !vis_index_ideal in E by lia.
    exact (ideal_index_inj Hq Hp Hq' Hp' E).
  - intros k Hk.
    destruct (@ideal_index_surj num_stations k ltac:(lia) Hk) as [q [p [Hq [Hp E]]]].
    exists q, p. rewrite vis_index_ideal by lia. auto.
  - intros q p Hq Hp. rewrite !vis_index_ideal by lia.
    unfold ideal_index. lia.
  - rewrite vis_index_ideal by lia.
    unfold ideal_index, row_start, triangle. simpl. lia.
  - intros q Hq Hq2. rewrite !vis_index_ideal by lia.
    unfold ideal_index. rewrite row_start_succ by lia. lia.
  - rewrite vis_index_ideal by lia. unfold ideal_index.
    pose proof (@row_start_succ num_stations (num_stations - 2) ltac:(lia)) as S.
    replace (num_stations - 2 + 1) with (num_stations - 1) in S by lia.
    rewrite row_start_last in S by lia. lia.
Qed.

Lemma vis_index_bijection_witness :
  2 <= 3 <= 46343 /\
  vis_index 3 0 1 = 0 /\
  (forall q p, 0 <= q < p -> p < 3 -> 0 <= vis_index 3 q p < total_baselines 3).
Proof.
  split; [lia |].
  destruct (@vis_index_bijection 3 ltac:(lia)) as [Hr [_ [_ [_ [H0 _]]]]].
  split; [exact H0 | exact Hr].
Defined.

(** With 46344 stations the product [(station_q-1)*station_q] of the last
    row exceeds [INT_MAX], and the computed slot is negative. *)
Lemma vis_index_overflow :
  ~ (forall num_stations, 2 <= num_stations ->
       forall q p, 0 <= q < p -> p < num_stations ->
         0 <= vis_index num_stations q p < total_baselines num_stations).
Proof.
  intros H.
  specialize (H 46344 ltac:(lia) 46342 46343 ltac:(lia) ltac:(lia)).
  vm_compute in H. destruct H as [H _]. apply H. reflexivity.
Qed.

(** ** Reasoning about counted loops *)

Section LoopLemmas.

Variable S : Type.
Implicit Types (body : Z -> S -> S) (s : S).

Lemma for_loop_empty lo hi body s : hi <= lo -> for_loop lo hi body s = s.
Proof.
  intros H. unfold for_loop.
  replace (Z.to_nat (hi - lo)) with O by lia. reflexivity.
Qed.

Lemma for_loop_first lo hi body s :
  lo < hi -> for_loop lo hi body s = for_loop (lo + 1) hi body (body lo s).
Proof.
  intros H. unfold for_loop.
  replace (Z.to_nat (hi - lo)) with (Datatypes.S (Z.to_nat (hi - (lo + 1)))) by lia.
  reflexivity.
Qed.

Lemma iterate_from_plus (n m : nat) i body s :
  iterate_from (n + m) i body s
  = iterate_from m (i + Z.of_nat n) body (iterate_from n i body s).
Proof.
  revert i s. induction n as [| n IH]; intros i s.
  - simpl. f_equal; lia.
  - cbn [Nat.add iterate_from]. rewrite IH. f_equal; lia.
Qed.

Lemma for_loop_split lo mid hi body s :
  lo <= mid <= hi ->
  for_loop lo hi body s = for_loop mid hi body (for_loop lo mid body s).
Proof.
  intros H. unfold for_loop.
  replace (Z.to_nat (hi - lo)) with (Z.to_nat (mid - lo) + Z.to_nat (hi - mid))%nat by lia.
  rewrite iterate_from_plus. f_equal; lia.
Qed.

Lemma iterate_from_ext (n : nat) i body body' s :
  (forall j t, i <= j < i + Z.of_nat n -> body j t = body' j t) ->
  iterate_from n i body s = iterate_from n i body' s.
Proof.
  revert i s. induction n as [| n IH]; intros i s H.
  - reflexivity.
  - cbn [iterate_from]. rewrite H by lia. apply IH.
    intros j t Hj. apply H. lia.
Qed.

Lemma for_loop_ext lo hi body body' s :
  (forall j t, lo <= j < hi -> body j t = body' j t) ->
  for_loop lo hi body s = for_loop lo hi body' s.
Proof.
  intros H. unfold for_loop. apply iterate_from_ext.
  intros j t Hj. apply H. lia.
Qed.

Lemma iterate_from_shift (n : nat) i k body s :
  iterate_from n (i + k) body s = iterate_from n i (fun j => body (j + k)) s.
Proof.
  revert i s. induction n as [| n IH]; intros i s.
  - reflexivity.
  - cbn [iterate_from].
    replace (i + k + 1) with (i + 1 + k) by lia. apply IH.
Qed.

Lemma for_loop_shift lo hi k body s :
  for_loop (lo + k) (hi + k) body s = for_loop lo hi (fun j => body (j + k)) s.
Proof.
  unfold for_loop.
  replace (hi + k - (lo + k)) with (hi - lo) by lia.
  apply iterate_from_shift.
Qed.

(** A property kept by every iteration holds after the loop. *)
Lemma for_loop_invariant (P : S -> Prop) lo hi body s :
  P s -> (forall j t, lo <= j < hi -> P t -> P (body j t)) ->
  P (for_loop lo hi body s).
Proof.
  unfold for_loop.
  remember (Z.to_nat (hi - lo)) as n eqn:En.
  assert (Hn : lo + Z.of_nat n <= Z.max lo hi) by lia. clear En.
  revert lo s Hn. induction n as [| n IH]; intros lo s Hn Hs Hstep.
  - exact Hs.
  - cbn [iterate_from]. apply IH.
    + lia.
    + apply Hstep; [lia | exact Hs].
    + intros j t Hj. apply Hstep. lia.
Qed.

End LoopLemmas.

Section LoopRelation.

Variables S T : Type.

(** Two loops over the same range whose bodies keep a relation between
    their states end in related states. *)
Lemma for_loop_related (R : S -> T -> Prop) lo hi
    (body : Z -> S -> S) (body' : Z -> T -> T) s t :
  R s t ->
  (forall j u v, lo <= j < hi -> R u v -> R (body j u) (body' j v)) ->
  R (for_loop lo hi body s) (for_loop lo hi body' t).
Proof.
  unfold for_loop.
  remember (Z.to_nat (hi - lo)) as n eqn:En.
  assert (Hn : lo + Z.of_nat n <= Z.max lo hi) by lia. clear En.
  revert lo s t Hn. induction n as [| n IH]; intros lo s t Hn Hst Hstep.
  - exact Hst.
  - cbn [iterate_from]. apply IH.
    + lia.
    + apply Hstep; [lia | exact Hst].
    + intros j u v Hj. apply Hstep. lia.
Qed.

End LoopRelation.

Section StoreLemmas.

Variable A : Type.

Lemma cells_store_same (buf : buffer A) i v : cells (store buf i v) i = v.
Proof. simpl. rewrite Z.eqb_refl. reflexivity. Qed.

Lemma cells_store_other (buf : buffer A) i j v :
  j <> i -> cells (store buf i v) j = cells buf j.
Proof. intros H. simpl. apply Z.eqb_neq in H. rewrite H. reflexivity. Qed.

(** A loop that stores [f i] into cell [i] for each [i] of its range. *)
Lemma for_loop_store_cells (f : Z -> A) lo hi (buf : buffer A) j :
  cells (for_loop lo hi (fun i b => store b i (f i)) buf) j
  = if (lo <=? j) && (j <? hi) then f j else cells buf j.
Proof.
  unfold for_loop.
  remember (Z.to_nat (hi - lo)) as n eqn:En.
  revert lo buf En. induction n as [| n IH]; intros lo buf En.
  - simpl.
    destruct (lo <=? j) eqn:E1; destruct (j <? hi) eqn:E2; simpl; try reflexivity.
    apply Z.leb_le in E1. apply Z.ltb_lt in E2. lia.
  - cbn [iterate_from]. rewrite IH by lia.
    destruct (Z.eq_dec j lo) as [-> | Hne].
    + replace (lo + 1 <=? lo) with false by (symmetry; apply Z.leb_gt; lia).
      replace (lo <=? lo) with true by (symmetry; apply Z.leb_le; lia).
      replace (lo <? hi) with true by (symmetry; apply Z.ltb_lt; lia).
      simpl. rewrite Z.eqb_refl. reflexivity.
    + rewrite cells_store_other by exact Hne.
      destruct (lo + 1 <=? j) eqn:E1; destruct (lo <=? j) eqn:E2;
        try reflexivity.
      * apply Z.leb_le in E1. apply Z.leb_gt in E2. lia.
      * apply Z.leb_gt in E1. apply Z.leb_le in E2. lia.
Qed.

(** The cell of an index inside the range holds the value stored for it. *)
Lemma for_loop_store_inside (f : Z -> A) lo hi (buf : buffer A) j :
  lo <= j < hi ->
  cells (for_loop lo hi (fun i b => store b i (f i)) buf) j = f j.
Proof.
  intros Hj. rewrite for_loop_store_cells.
  replace (lo <=? j) with true by (symmetry; apply Z.leb_le; lia).
  replace (j <? hi) with true by (symmetry; apply Z.ltb_lt; lia).
  reflexivity.
Qed.

End StoreLemmas.

(** ** Arithmetic laws of the exact reals

    The laws that the theorems below assume of a number format, proved for
    [R]. *)

Module RealLaws.

Lemma real_sub_zero : forall v : R, fsub v (of_int 0) = v.
Proof. intros v. simpl. lra. Defined.

Lemma real_rounding_error_zero : forall s v : R, fsub (fsub (fadd s v) s) v = of_int 0.
Proof. intros s v. simpl. lra. Defined.

Lemma real_add_zero : forall v : R, fadd v (of_int 0) = v.
Proof. intros v. simpl. lra. Defined.

Lemma real_zero_add : forall v : R, fadd (of_int 0) v = v.
Proof. intros v. simpl. lra. Defined.

Lemma real_add_assoc : forall u v w : R, fadd (fadd u v) w = fadd u (fadd v w).
Proof. intros u v w. simpl. lra. Defined.

Lemma real_mul_comm : forall u v : R, fmul u v = fmul v u.
Proof. intros u v. simpl. lra. Defined.

Lemma real_mul_one : forall v : R, fmul v (of_int 1) = v.
Proof. intros v. simpl. lra. Defined.

Lemma real_two_over_two : fdiv (of_int 2) (of_int 2) = (of_int 1 : R).
Proof. simpl. lra. Defined.

Lemma real_neg_eq_zero : forall v : R, feqb (fneg v) (of_int 0) = feqb v (of_int 0).
Proof.
  intros v. simpl. unfold ExactReal.Req_bool.
  destruct (Req_dec_T (- v) 0) as [H1 | H1]; destruct (Req_dec_T v 0) as [H2 | H2];
    try reflexivity; exfalso; lra.
Defined.

Lemma real_div_neg_neg : forall u v : R, fdiv (fneg u) (fneg v) = fdiv u v.
Proof.
  intros u v. simpl. unfold Rdiv. rewrite Rinv_opp. ring.
Defined.

Lemma real_zero_eq_zero : feqb (of_int 0 : R) (of_int 0) = true.
Proof.
  simpl. unfold ExactReal.Req_bool.
  destruct (Req_dec_T 0 0) as [H | H]; [reflexivity | exfalso; lra].
Defined.

Lemma real_mul_neg : forall u v : R, fmul u (fneg v) = fneg (fmul u v).
Proof. intros u v. simpl. ring. Defined.

End RealLaws.

(** ** The guard of the single-precision path in exact arithmetic *)

Section KahanExact.

Context {F : Type} {ops : FloatOps F} {libm : LibM F}.

Local Open Scope fl_scope.

(** Two facts of arithmetic without rounding. *)
Hypothesis sub_zero : forall v : F, v - of_int 0 = v.
Hypothesis rounding_error_zero : forall s v : F, (s + v) - s - v = of_int 0.

Lemma kahan_add_exact (s v : F) : kahan_add s (of_int 0) v = (s + v, of_int 0).
Proof.
  unfold kahan_add. rewrite sub_zero, rounding_error_zero. reflexivity.
Qed.

Lemma kahan_add2_exact (s v : complex2 F) : kahan_add2 s zero2 v = (add2 s v, zero2).
Proof.
  unfold kahan_add2, zero2. cbn [x y]. rewrite !kahan_add_exact. reflexivity.
Qed.

Lemma kahan_add4c_exact (s v : complex4c F) :
  kahan_add4c s zero4c v = (add4c s v, zero4c).
Proof.
  unfold kahan_add4c, zero4c. cbn [a b c d]. rewrite !kahan_add2_exact. reflexivity.
Qed.

Lemma accumulate_f_exact (sum : complex4c F) (i : Z)
    (source_I source_Q source_U source_V : Z -> F) (sp sq : Z -> complex4c F) (r1 : F) :
  oskar_accumulate_baseline_visibility_for_source_f sum i
    source_I source_Q source_U source_V sp sq r1 zero4c
  = (oskar_accumulate_baseline_visibility_for_source_d sum i
       source_I source_Q source_U source_V sp sq r1, zero4c).
Proof.
  unfold oskar_accumulate_baseline_visibility_for_source_f,
    oskar_accumulate_baseline_visibility_for_source_d.
  apply kahan_add4c_exact.
Qed.

Variables (num_sources num_stations : Z).
Variable jones : Z -> complex4c F.
Variables source_I source_Q source_U source_V : Z -> F.
Variables source_l source_m source_a source_b source_c : Z -> F.
Variables station_u station_v : Z -> F.
Variables inv_wavelength frac_bandwidth : F.

Lemma baseline_sum_f_exact (station_q station_p : Z) :
  baseline_sum_f num_sources jones source_I source_Q source_U source_V
    source_l source_m source_a source_b source_c station_u station_v
    inv_wavelength frac_bandwidth station_q station_p
  = (baseline_sum_d num_sources jones source_I source_Q source_U source_V
       source_l source_m source_a source_b source_c station_u station_v
       inv_wavelength frac_bandwidth station_q station_p, zero4c).
Proof.
  unfold baseline_sum_f, baseline_sum_d.
  apply (for_loop_related (fun (acc : complex4c F * complex4c F) sum => acc = (sum, zero4c))).
  - reflexivity.
  - intros j u v _ ->. cbn [fst snd]. apply accumulate_f_exact.
Qed.

Lemma gaussian_f_d_equivalent_buffers (vis : buffer (complex4c F)) :
  oskar_correlate_gaussian_omp_f num_sources num_stations jones
    source_I source_Q source_U source_V source_l source_m
    source_a source_b source_c station_u station_v
    inv_wavelength frac_bandwidth vis
  = oskar_correlate_gaussian_omp_d num_sources num_stations jones
      source_I source_Q source_U source_V source_l source_m
      source_a source_b source_c station_u station_v
      inv_wavelength frac_bandwidth vis.
Proof.
  unfold oskar_correlate_gaussian_omp_f, oskar_correlate_gaussian_omp_d.
  apply for_loop_ext. intros station_q buf _.
  apply for_loop_ext. intros station_p buf' _.
  rewrite baseline_sum_f_exact. reflexivity.
Qed.

(** C7: over arithmetic that does not round (subtracting zero changes
    nothing, and the rounding error [(s + v) - s - v] of an addition is
    zero) the single-precision and the double-precision Gaussian correlator
    return the same visibility buffer for the same inputs.  The
    single-precision path carries a guard next to each local accumulator and
    hands it to the accumulation primitive; the guard is zero after every
    baseline, and the double-precision primitive takes none. *)
Theorem gaussian_f_d_equivalent (vis : buffer (complex4c F)) :
  oskar_correlate_gaussian_omp_f num_sources num_stations jones
    source_I source_Q source_U source_V source_l source_m
    source_a source_b source_c station_u station_v
    inv_wavelength frac_bandwidth vis
  = oskar_correlate_gaussian_omp_d num_sources num_stations jones
      source_I source_Q source_U source_V source_l source_m
      source_a source_b source_c station_u station_v
      inv_wavelength frac_bandwidth vis
  /\ (forall station_q station_p,
        snd (baseline_sum_f num_sources jones source_I source_Q source_U source_V
               source_l source_m source_a source_b source_c station_u station_v
               inv_wavelength frac_bandwidth station_q station_p) = zero4c).
Proof.
  split.
  - apply gaussian_f_d_equivalent_buffers.
  - intros station_q station_p. rewrite baseline_sum_f_exact. reflexivity.
Qed.

End KahanExact.

Lemma gaussian_f_d_equivalent_witness :
  oskar_correlate_gaussian_omp_f 2 3 Scenario.jones
    Scenario.ones Scenario.zeros Scenario.zeros Scenario.zeros
    Scenario.zeros Scenario.zeros Scenario.zeros Scenario.zeros Scenario.zeros
    Scenario.station_u Scenario.station_v 1%R 0%R Scenario.vis0
  = oskar_correlate_gaussian_omp_d 2 3 Scenario.jones
      Scenario.ones Scenario.zeros Scenario.zeros Scenario.zeros
      Scenario.zeros Scenario.zeros Scenario.zeros Scenario.zeros Scenario.zeros
      Scenario.station_u Scenario.station_v 1%R 0%R Scenario.vis0.
Proof.
  apply (gaussian_f_d_equivalent RealLaws.real_sub_zero RealLaws.real_rounding_error_zero).
Defined.

(** ** Degenerate counts and the order of the per-baseline assignments *)

Section GaussianBaseline.

Context {F : Type} {ops : FloatOps F} {libm : LibM F}.

Local Open Scope fl_scope.

Lemma add2_zero (u : complex2 F) :
  (forall v : F, v + of_int 0 = v) -> add2 u zero2 = u.
Proof.
  intros H. destruct u as [ux uy]. unfold add2, zero2. cbn [x y].
  rewrite !H. reflexivity.
Qed.

Lemma add4c_zero (m : complex4c F) :
  (forall v : F, v + of_int 0 = v) -> add4c m zero4c = m.
Proof.
  intros H. destruct m as [ma mb mc md]. unfold add4c, zero4c. cbn [a b c d].
  rewrite !add2_zero by exact H. reflexivity.
Qed.

Variables (num_sources num_stations : Z).
Variable jones : Z -> complex4c F.
Variables source_I source_Q source_U source_V : Z -> F.
Variables source_l source_m source_a source_b source_c : Z -> F.
Variables station_u station_v : Z -> F.
Variables inv_wavelength frac_bandwidth : F.

(** C3: with no source the local accumulator (and its guard) of every
    baseline is zero and, as adding zero changes no value, every cell of the
    visibility buffer keeps its value; with fewer than two stations the
    buffer is returned as it was, with no store recorded.  The function
    has no status to report an error with. *)
Theorem gaussian_f_degenerate (vis : buffer (complex4c F)) :
  (num_sources = 0 ->
     (forall station_q station_p,
        baseline_sum_f num_sources jones source_I source_Q source_U source_V
          source_l source_m source_a source_b source_c station_u station_v
          inv_wavelength frac_bandwidth station_q station_p = (zero4c, zero4c)) /\
     ((forall v : F, v + of_int 0 = v) ->
      forall j,
        cells (oskar_correlate_gaussian_omp_f num_sources num_stations jones
                 source_I source_Q source_U source_V source_l source_m
                 source_a source_b source_c station_u station_v
                 inv_wavelength frac_bandwidth vis) j
        = cells vis j)) /\
  (num_stations < 2 ->
     oskar_correlate_gaussian_omp_f num_sources num_stations jones
       source_I source_Q source_U source_V source_l source_m
       source_a source_b source_c station_u station_v
       inv_wavelength frac_bandwidth vis
     = vis).
Proof.
  split.
  - intros Hs.
    assert (Hsum : forall station_q station_p,
      baseline_sum_f num_sources jones source_I source_Q source_U source_V
        source_l source_m source_a source_b source_c station_u station_v
        inv_wavelength frac_bandwidth station_q station_p = (zero4c, zero4c)).
    { intros station_q station_p. unfold baseline_sum_f.
      apply for_loop_empty. lia. }
    split; [exact Hsum |].
    intros Hadd j. unfold oskar_correlate_gaussian_omp_f.
    apply (for_loop_invariant (fun buf => cells buf j = cells vis j)).
    + reflexivity.
    + intros station_q buf _ Hbuf.
      apply (for_loop_invariant (fun buf => cells buf j = cells vis j)).
      * exact Hbuf.
      * intros station_p buf' _ Hbuf'. cbv zeta.
        rewrite Hsum. cbn [fst].
        rewrite add4c_zero by exact Hadd.
        destruct (Z.eq_dec j (vis_index num_stations station_q station_p)) as [-> | Hne].
        -- rewrite cells_store_same. exact Hbuf'.
        -- rewrite cells_store_other by exact Hne. exact Hbuf'.
  - intros Hn. unfold oskar_correlate_gaussian_omp_f.
    destruct (Z_le_gt_dec num_stations 0) as [H0 | H0].
    + apply for_loop_empty. lia.
    + rewrite for_loop_first by lia.
      rewrite (@for_loop_empty _ (0 + 1) num_stations) by lia.
      apply for_loop_empty. lia.
Qed.

(** C2: for every baseline the exponent of the Gaussian term is built from
    the lengths [uu0], [vv0] as they are before the rescaling ([uu0*uu0],
    [2*uu0*vv0], [vv0*vv0]), while the argument of the sinc uses the
    lengths after they are multiplied by [M_PI * frac_bandwidth]; this
    weight is what the loop over sources hands to the accumulation
    primitive.  The last part writes the rescaled lengths with the factor
    first ([pi * frac_bandwidth * uu0]), which takes a commutative product. *)
Theorem gaussian_weight_order (station_q station_p : Z) :
  let uu0 := (station_u station_p - station_u station_q) * inv_wavelength in
  let vv0 := (station_v station_p - station_v station_q) * inv_wavelength in
  let r2 := fun i =>
    fexp (- (source_a i * (uu0 * uu0) + source_b i * (of_int 2 * uu0 * vv0)
             + source_c i * (vv0 * vv0))) in
  let weight := fun i =>
    oskar_sinc (uu0 * (M_PI * frac_bandwidth) * source_l i
                + vv0 * (M_PI * frac_bandwidth) * source_m i) * r2 i in
  (forall i,
     source_weight source_l source_m source_a source_b source_c
       (baseline_terms station_u station_v inv_wavelength frac_bandwidth
          station_q station_p) i
     = weight i) /\
  baseline_sum_f num_sources jones source_I source_Q source_U source_V
    source_l source_m source_a source_b source_c station_u station_v
    inv_wavelength frac_bandwidth station_q station_p
  = for_loop 0 num_sources
      (fun i acc =>
         oskar_accumulate_baseline_visibility_for_source_f (fst acc) i
           source_I source_Q source_U source_V
           (offset jones (CInt.mul station_p num_sources))
           (offset jones (CInt.mul station_q num_sources))
           (weight i) (snd acc))
      (zero4c, zero4c) /\
  ((forall u v : F, u * v = v * u) ->
   forall i,
     weight i
     = oskar_sinc (M_PI * frac_bandwidth * uu0 * source_l i
                   + M_PI * frac_bandwidth * vv0 * source_m i) * r2 i).
Proof.
  cbv zeta. split; [| split].
  - intros i. reflexivity.
  - reflexivity.
  - intros Hcomm i.
    rewrite (Hcomm (M_PI * frac_bandwidth)
               ((station_u station_p - station_u station_q) * inv_wavelength)).
    rewrite (Hcomm (M_PI * frac_bandwidth)
               ((station_v station_p - station_v station_q) * inv_wavelength)).
    reflexivity.
Qed.

End GaussianBaseline.

Lemma gaussian_f_degenerate_witness :
  (forall j,
     cells (oskar_correlate_gaussian_omp_f 0 3 Scenario.jones
              Scenario.ones Scenario.zeros Scenario.zeros Scenario.zeros
              Scenario.zeros Scenario.zeros Scenario.zeros Scenario.zeros Scenario.zeros
              Scenario.station_u Scenario.station_v 1%R 0%R Scenario.vis0) j
     = cells Scenario.vis0 j) /\
  oskar_correlate_gaussian_omp_f 2 1 Scenario.jones
    Scenario.ones Scenario.zeros Scenario.zeros Scenario.zeros
    Scenario.zeros Scenario.zeros Scenario.zeros Scenario.zeros Scenario.zeros
    Scenario.station_u Scenario.station_v 1%R 0%R Scenario.vis0
  = Scenario.vis0.
Proof.
  split.
  - apply (gaussian_f_degenerate 0 3 Scenario.jones
             Scenario.ones Scenario.zeros Scenario.zeros Scenario.zeros
             Scenario.zeros Scenario.zeros Scenario.zeros Scenario.zeros Scenario.zeros
             Scenario.station_u Scenario.station_v 1%R 0%R Scenario.vis0).
    + reflexivity.
    + exact RealLaws.real_add_zero.
  - apply (gaussian_f_degenerate 2 1 Scenario.jones
             Scenario.ones Scenario.zeros Scenario.zeros Scenario.zeros
             Scenario.zeros Scenario.zeros Scenario.zeros Scenario.zeros Scenario.zeros
             Scenario.station_u Scenario.station_v 1%R 0%R Scenario.vis0).
    lia.
Defined.

Lemma gaussian_weight_order_witness :
  source_weight Scenario.zeros Scenario.zeros Scenario.ones Scenario.ones Scenario.ones
    (baseline_terms Scenario.station_u Scenario.station_v 1%R (1 / 2)%R 0 1) 0
  = fmul (oskar_sinc (fadd (fmul (fmul (fmul M_PI (1 / 2)%R) 1%R) 0%R)
                           (fmul (fmul (fmul M_PI (1 / 2)%R) 2%R) 0%R)))
         (fexp (fneg (1 + 4 + 4)%R)).
Proof.
  destruct (gaussian_weight_order 2 Scenario.jones
              Scenario.ones Scenario.zeros Scenario.zeros Scenario.zeros
              Scenario.zeros Scenario.zeros Scenario.ones Scenario.ones Scenario.ones
              Scenario.station_u Scenario.station_v 1%R (1 / 2)%R 0 1)
    as [Hw [_ Hc]].
  rewrite Hw, (Hc RealLaws.real_mul_comm).
  unfold Scenario.station_u, Scenario.station_v, Scenario.zeros, Scenario.ones.
  simpl.
  replace ((1 - 0) * 1)%R with 1%R by lra.
  replace ((2 * 1 - 2 * 0) * 1)%R with 2%R by lra.
  replace (1 * (1 * 1) + 1 * (2 * 1 * 2) + 1 * (2 * 2))%R with (1 + 4 + 4)%R by lra.
  reflexivity.
Defined.

(** ** The sinc function *)

Section Sinc.

Context {F : Type} {ops : FloatOps F} {libm : LibM F}.

Local Open Scope fl_scope.

(** Zero compares equal to itself, and negation commutes with the
    comparison with zero, with products, with [sin] and with quotients:
    facts of the real numbers that IEEE arithmetic keeps. *)
Hypothesis zero_eq_zero : feqb (of_int 0 : F) (of_int 0) = true.
Hypothesis neg_eq_zero : forall v : F, feqb (- v) (of_int 0) = feqb v (of_int 0).
Hypothesis mul_neg : forall u v : F, u * (- v) = - (u * v).
Hypothesis sin_odd : forall v : F, fsin (- v) = - fsin v.
Hypothesis div_neg_neg : forall u v : F, (- u) / (- v) = u / v.

(** C4: [oskar_sinc] is [1] at zero, where it does not divide; it is
    [sin(pi x) / (pi x)] where [x] does not compare equal to zero; it is
    even; and it is the function the per-source loop of the correlator
    applies to the smearing argument [uu * l + vv * m]. *)
Theorem oskar_sinc_properties :
  oskar_sinc (of_int 0 : F) = of_int 1 /\
  (forall v : F, feqb v (of_int 0) = false ->
     oskar_sinc v = fsin (M_PI * v) / (M_PI * v)) /\
  (forall v : F, oskar_sinc (- v) = oskar_sinc v) /\
  (forall (source_l source_m source_a source_b source_c : Z -> F)
          (uu vv uu2 vv2 uuvv : F) (i : Z),
     source_weight source_l source_m source_a source_b source_c
       (uu, vv, uu2, vv2, uuvv) i
     = oskar_sinc (uu * source_l i + vv * source_m i)
       * fexp (- (source_a i * uu2 + source_b i * uuvv + source_c i * vv2))).
Proof.
  repeat apply conj.
  - unfold oskar_sinc. rewrite zero_eq_zero. reflexivity.
  - intros v Hv. unfold oskar_sinc. rewrite Hv. reflexivity.
  - intros v. unfold oskar_sinc. rewrite neg_eq_zero.
    destruct (feqb v (of_int 0)); [reflexivity |].
    rewrite mul_neg, sin_odd, div_neg_neg. reflexivity.
  - intros. reflexivity.
Qed.

End Sinc.

Lemma oskar_sinc_properties_witness :
  oskar_sinc 0%R = 1%R /\ oskar_sinc (- (1 / 2))%R = oskar_sinc (1 / 2)%R.
Proof.
  destruct (@oskar_sinc_properties R ExactReal.real_ops ExactReal.real_libm
              RealLaws.real_zero_eq_zero RealLaws.real_neg_eq_zero
              RealLaws.real_mul_neg sin_neg RealLaws.real_div_neg_neg) as [H0 [_ [Heven _]]].
  split; [exact H0 | exact (Heven (1 / 2)%R)].
Defined.

(** ** Doubling the sources *)

Section Doubling.

Context {F : Type} {ops : FloatOps F} {libm : LibM F}.

Local Open Scope fl_scope.

Hypothesis add_zero : forall v : F, v + of_int 0 = v.
Hypothesis add_assoc : forall u v w : F, (u + v) + w = u + (v + w).

Lemma add2_assoc (u v w : complex2 F) : add2 (add2 u v) w = add2 u (add2 v w).
Proof. unfold add2. cbn [x y]. rewrite !add_assoc. reflexivity. Qed.

Lemma add4c_assoc (u v w : complex4c F) : add4c (add4c u v) w = add4c u (add4c v w).
Proof. unfold add4c. cbn [a b c d]. rewrite !add2_assoc. reflexivity. Qed.

(** A running sum started from [s0] is [s0] plus the sum started from zero. *)
Lemma sum_loop_from (t : Z -> complex4c F) (lo hi : Z) (s0 : complex4c F) :
  for_loop lo hi (fun i s => add4c s (t i)) s0
  = add4c s0 (for_loop lo hi (fun i s => add4c s (t i)) zero4c).
Proof.
  rewrite <- (add4c_zero s0 add_zero) at 1.
  apply (for_loop_related (fun u v => u = add4c s0 v)).
  - reflexivity.
  - intros j u v _ ->. apply add4c_assoc.
Qed.

(** Summing the same [n] terms twice gives the sum added to itself. *)
Lemma sum_loop_twice (t t2 : Z -> complex4c F) (n : Z) :
  doubled n t t2 ->
  for_loop 0 (2 * n) (fun i s => add4c s (t2 i)) zero4c
  = add4c (for_loop 0 n (fun i s => add4c s (t i)) zero4c)
          (for_loop 0 n (fun i s => add4c s (t i)) zero4c).
Proof.
  intros Hd.
  destruct (Z_le_gt_dec n 0) as [Hn | Hn].
  - rewrite !for_loop_empty by lia. symmetry. apply add4c_zero. exact add_zero.
  - rewrite (@for_loop_split _ 0 n (2 * n)%Z) by lia.
    replace (2 * n)%Z with (n + n)%Z by lia.
    rewrite (@for_loop_shift _ 0 n n).
    rewrite (@for_loop_ext _ 0 n (fun i s => add4c s (t2 i)) (fun i s => add4c s (t i)))
      by (intros j u Hj; destruct (Hd j Hj) as [-> _]; reflexivity).
    rewrite (@for_loop_ext _ 0 n (fun j s => add4c s (t2 (j + n)%Z)) (fun i s => add4c s (t i)))
      by (intros j u Hj; destruct (Hd j Hj) as [_ ->]; reflexivity).
    apply sum_loop_from.
Qed.

Variables (num_sources num_stations : Z).
Variables jones jones2 : Z -> complex4c F.
Variables source_I source_Q source_U source_V : Z -> F.
Variables source_l source_m source_a source_b source_c : Z -> F.
Variables source_I2 source_Q2 source_U2 source_V2 : Z -> F.
Variables source_l2 source_m2 source_a2 source_b2 source_c2 : Z -> F.
Variables station_u station_v : Z -> F.
Variables inv_wavelength frac_bandwidth : F.

(** The second set of arrays holds every source twice: each per-source
    array, and each station's row of the Jones array. *)
Hypothesis jones_doubled :
  forall s, 0 <= s < num_stations ->
    doubled num_sources (offset jones (CInt.mul s num_sources))
      (offset jones2 (CInt.mul s (2 * num_sources))).
Hypothesis I_doubled : doubled num_sources source_I source_I2.
Hypothesis Q_doubled : doubled num_sources source_Q source_Q2.
Hypothesis U_doubled : doubled num_sources source_U source_U2.
Hypothesis V_doubled : doubled num_sources source_V source_V2.
Hypothesis l_doubled : doubled num_sources source_l source_l2.
Hypothesis m_doubled : doubled num_sources source_m source_m2.
Hypothesis a_doubled : doubled num_sources source_a source_a2.
Hypothesis b_doubled : doubled num_sources source_b source_b2.
Hypothesis c_doubled : doubled num_sources source_c source_c2.

Lemma weighted_term_doubled (station_q station_p : Z) (terms : F * F * F * F * F) :
  0 <= station_q < num_stations -> 0 <= station_p < num_stations ->
  doubled num_sources
    (weighted_term source_I source_Q source_U source_V
       source_l source_m source_a source_b source_c
       (offset jones (CInt.mul station_p num_sources))
       (offset jones (CInt.mul station_q num_sources)) terms)
    (weighted_term source_I2 source_Q2 source_U2 source_V2
       source_l2 source_m2 source_a2 source_b2 source_c2
       (offset jones2 (CInt.mul station_p (2 * num_sources)))
       (offset jones2 (CInt.mul station_q (2 * num_sources))) terms).
Proof.
  intros Hq Hp i Hi.
  destruct (jones_doubled Hq Hi) as [Jq1 Jq2].
  destruct (jones_doubled Hp Hi) as [Jp1 Jp2].
  destruct (I_doubled Hi) as [I1 I2]. destruct (Q_doubled Hi) as [Q1 Q2].
  destruct (U_doubled Hi) as [U1 U2]. destruct (V_doubled Hi) as [V1 V2].
  destruct (l_doubled Hi) as [l1 l2]. destruct (m_doubled Hi) as [m1 m2].
  destruct (a_doubled Hi) as [a1 a2]. destruct (b_doubled Hi) as [b1 b2].
  destruct (c_doubled Hi) as [c1 c2].
  unfold weighted_term, source_term, source_weight.
  destruct terms as [[[[uu vv] uu2] vv2] uuvv].
  split.
  - rewrite Jq1, Jp1, I1, Q1, U1, V1, l1, m1, a1, b1, c1. reflexivity.
  - rewrite Jq2, Jp2, I2, Q2, U2, V2, l2, m2, a2, b2, c2. reflexivity.
Qed.

Lemma baseline_sum_d_doubled (station_q station_p : Z) :
  0 <= station_q < num_stations -> 0 <= station_p < num_stations ->
  baseline_sum_d (2 * num_sources) jones2 source_I2 source_Q2 source_U2 source_V2
    source_l2 source_m2 source_a2 source_b2 source_c2 station_u station_v
    inv_wavelength frac_bandwidth station_q station_p
  = let sum :=
      baseline_sum_d num_sources jones source_I source_Q source_U source_V
        source_l source_m source_a source_b source_c station_u station_v
        inv_wavelength frac_bandwidth station_q station_p in
    add4c sum sum.
Proof.
  intros Hq Hp. cbv zeta.
  exact (sum_loop_twice
           (weighted_term_doubled
              (baseline_terms station_u station_v inv_wavelength frac_bandwidth
                 station_q station_p) Hq Hp)).
Qed.

(** For the single-precision path: arithmetic that does not round. *)
Hypothesis sub_zero : forall v : F, v - of_int 0 = v.
Hypothesis rounding_error_zero : forall s v : F, (s + v) - s - v = of_int 0.

(** C5 (as amended): over arithmetic where addition is associative with
    zero as its unit (and, for the guard of the single-precision path, without rounding
    error), running a correlator on source arrays that hold every source
    twice adds to each visibility entry exactly the sum of two copies of
    what the run on the original arrays adds to it.  Both runs are the same
    pass over the baselines, the first adding [sum station_q station_p], the
    second [sum station_q station_p + sum station_q station_p]. *)
Theorem gaussian_doubling (vis : buffer (complex4c F)) :
  let sum :=
    baseline_sum_d num_sources jones source_I source_Q source_U source_V
      source_l source_m source_a source_b source_c station_u station_v
      inv_wavelength frac_bandwidth in
  let twice := fun station_q station_p =>
    add4c (sum station_q station_p) (sum station_q station_p) in
  (oskar_correlate_gaussian_omp_d num_sources num_stations jones
     source_I source_Q source_U source_V source_l source_m
     source_a source_b source_c station_u station_v
     inv_wavelength frac_bandwidth vis
   = accumulate_baselines num_stations sum vis /\
   oskar_correlate_gaussian_omp_d (2 * num_sources) num_stations jones2
     source_I2 source_Q2 source_U2 source_V2 source_l2 source_m2
     source_a2 source_b2 source_c2 station_u station_v
     inv_wavelength frac_bandwidth vis
   = accumulate_baselines num_stations twice vis) /\
  (oskar_correlate_gaussian_omp_f num_sources num_stations jones
     source_I source_Q source_U source_V source_l source_m
     source_a source_b source_c station_u station_v
     inv_wavelength frac_bandwidth vis
   = accumulate_baselines num_stations sum vis /\
   oskar_correlate_gaussian_omp_f (2 * num_sources) num_stations jones2
     source_I2 source_Q2 source_U2 source_V2 source_l2 source_m2
     source_a2 source_b2 source_c2 station_u station_v
     inv_wavelength frac_bandwidth vis
   = accumulate_baselines num_stations twice vis).
Proof.
  cbv zeta.
  assert (Hd2 :
    oskar_correlate_gaussian_omp_d (2 * num_sources) num_stations jones2
      source_I2 source_Q2 source_U2 source_V2 source_l2 source_m2
      source_a2 source_b2 source_c2 station_u station_v
      inv_wavelength frac_bandwidth vis
    = accumulate_baselines num_stations
        (fun station_q station_p =>
           add4c
             (baseline_sum_d num_sources jones source_I source_Q source_U source_V
                source_l source_m source_a source_b source_c station_u station_v
                inv_wavelength frac_bandwidth station_q station_p)
             (baseline_sum_d num_sources jones source_I source_Q source_U source_V
                source_l source_m source_a source_b source_c station_u station_v
                inv_wavelength frac_bandwidth station_q station_p))
        vis).
  { unfold oskar_correlate_gaussian_omp_d, accumulate_baselines.
    apply for_loop_ext. intros station_q buf Hq.
    apply for_loop_ext. intros station_p buf' Hp. cbv zeta.
    rewrite baseline_sum_d_doubled by lia. reflexivity. }
  split; split.
  - reflexivity.
  - exact Hd2.
  - unfold oskar_correlate_gaussian_omp_f, accumulate_baselines.
    apply for_loop_ext. intros station_q buf Hq.
    apply for_loop_ext. intros station_p buf' Hp. cbv zeta.
    rewrite (baseline_sum_f_exact sub_zero rounding_error_zero). reflexivity.
  - rewrite <- Hd2.
    apply (gaussian_f_d_equivalent_buffers sub_zero rounding_error_zero).
Qed.

End Doubling.

Lemma flux_doubled : doubled 2 Scenario.flux Scenario.flux_twice.
Proof.
  intros i Hi. assert (Hc : i = 0 \/ i = 1) by lia.
  destruct Hc as [-> | ->]; split; reflexivity.
Defined.

Lemma constant_doubled (A : Type) (n : Z) (f : Z -> A) (v : A) :
  (forall i, f i = v) -> doubled n f f.
Proof.
  intros H i _. split; [reflexivity | rewrite !H; reflexivity].
Defined.

Lemma gaussian_doubling_witness :
  let sum :=
    baseline_sum_d 2 Scenario.jones Scenario.flux Scenario.zeros Scenario.zeros Scenario.zeros
      Scenario.zeros Scenario.zeros Scenario.zeros Scenario.zeros Scenario.zeros
      Scenario.station_u Scenario.station_v 1%R 0%R in
  oskar_correlate_gaussian_omp_d (2 * 2) 3 Scenario.jones
    Scenario.flux_twice Scenario.zeros Scenario.zeros Scenario.zeros
    Scenario.zeros Scenario.zeros Scenario.zeros Scenario.zeros Scenario.zeros
    Scenario.station_u Scenario.station_v 1%R 0%R Scenario.vis0
  = accumulate_baselines 3
      (fun station_q station_p =>
         add4c (sum station_q station_p) (sum station_q station_p))
      Scenario.vis0.
Proof.
  cbv zeta.
  pose (Hz := @constant_doubled R 2 Scenario.zeros 0%R (fun i => eq_refl)).
  apply (@gaussian_doubling R ExactReal.real_ops ExactReal.real_libm
           RealLaws.real_add_zero RealLaws.real_add_assoc
           2 3 Scenario.jones Scenario.jones
           Scenario.flux Scenario.zeros Scenario.zeros Scenario.zeros
           Scenario.zeros Scenario.zeros Scenario.zeros Scenario.zeros Scenario.zeros
           Scenario.flux_twice Scenario.zeros Scenario.zeros Scenario.zeros
           Scenario.zeros Scenario.zeros Scenario.zeros Scenario.zeros Scenario.zeros
           Scenario.station_u Scenario.station_v 1%R 0%R
           (fun s _ => @constant_doubled (complex4c R) 2
                         (offset Scenario.jones (CInt.mul s 2))
                         Scenario.identity4c (fun i => eq_refl))
           flux_doubled Hz Hz Hz Hz Hz Hz Hz Hz
           RealLaws.real_sub_zero RealLaws.real_rounding_error_zero Scenario.vis0).
Defined.

Example doubling_binary64_values :
  let e := fun _ : float => PrimFloat.one in
  x (a (cells (DoublingBinary64.single e e) 0)) = 0x1.0000000000001p+0%float /\
  x (a (cells (DoublingBinary64.twice e e) 0)) = 2%float.
Proof. split; reflexivity. Qed.

(** The input holds every source twice, yet in binary64 the contribution of
    the doubled run to the XX visibility of the one baseline is [2], while
    twice the contribution of the original run is [2 + 2^-51]: the sums
    [1 + tiny + 1 + tiny] and [2 * (1 + tiny)] round differently.  This
    holds for every C library whose [exp(-0)] is [1]. *)
Lemma gaussian_doubling_rounds :
  doubled 2 DoublingBinary64.flux DoublingBinary64.flux /\
  doubled 2 DoublingBinary64.zeros DoublingBinary64.zeros /\
  (forall s, doubled 2 (offset DoublingBinary64.jones (CInt.mul s 2))
               (offset DoublingBinary64.jones (CInt.mul s (2 * 2)))) /\
  ~ exists e s : float -> float,
      e (PrimFloat.opp PrimFloat.zero) = PrimFloat.one /\
      let sum :=
        baseline_sum_d (libm := DoublingBinary64.c_library e s) 2 DoublingBinary64.jones
          DoublingBinary64.flux DoublingBinary64.zeros DoublingBinary64.zeros
          DoublingBinary64.zeros DoublingBinary64.zeros DoublingBinary64.zeros
          DoublingBinary64.zeros DoublingBinary64.zeros DoublingBinary64.zeros
          DoublingBinary64.station_u DoublingBinary64.zeros
          PrimFloat.one PrimFloat.zero in
      oskar_correlate_gaussian_omp_d (libm := DoublingBinary64.c_library e s)
        (2 * 2) 2 DoublingBinary64.jones
        DoublingBinary64.flux DoublingBinary64.zeros DoublingBinary64.zeros
        DoublingBinary64.zeros DoublingBinary64.zeros DoublingBinary64.zeros
        DoublingBinary64.zeros DoublingBinary64.zeros DoublingBinary64.zeros
        DoublingBinary64.station_u DoublingBinary64.zeros
        PrimFloat.one PrimFloat.zero DoublingBinary64.vis0
      = accumulate_baselines 2
          (fun station_q station_p =>
             add4c (sum station_q station_p) (sum station_q station_p))
          DoublingBinary64.vis0.
Proof.
  repeat apply conj.
  - intros i Hi. assert (Hc : i = 0 \/ i = 1) by lia.
    destruct Hc as [-> | ->]; split; reflexivity.
  - intros i _. split; reflexivity.
  - intros s i _. split; reflexivity.
  - intros [e [s [He H]]]. cbv zeta in H.
    apply (f_equal (fun buf => x (a (cells buf 0)))) in H.
    cbv in H. cbv in He. rewrite !He in H.
    apply (f_equal (fun v => PrimFloat.eqb v 2%float)) in H.
    vm_compute in H. discriminate H.
Qed.

(** ** The average cross-power beam of two stations *)

Section TwoStations.

Context {F : Type} {ops : FloatOps F}.

Local Open Scope fl_scope.

Hypothesis zero_add : forall v : F, of_int 0 + v = v.
Hypothesis add_zero : forall v : F, v + of_int 0 = v.
Hypothesis mul_one : forall v : F, v * of_int 1 = v.
Hypothesis two_over_two : of_int 2 / of_int 2 = (of_int 1 : F).

Lemma beam_norm_two : beam_norm 2 = (of_int 1 : F).
Proof.
  unfold beam_norm. change (CInt.mul 2 (CInt.sub 2 1)) with 2%Z.
  exact two_over_two.
Qed.

Lemma cross_power_at_two (num_sources : Z) (jones : Z -> complex2 F) (i : Z) :
  cross_power_at num_sources 2 jones (of_int 1) i
  = mul2 (jones (CInt.add (CInt.mul 0 num_sources) i))
         (conj2 (jones (CInt.add (CInt.mul 1 num_sources) i))).
Proof.
  unfold cross_power_at.
  rewrite (@for_loop_first _ 0 2) by lia.
  rewrite (@for_loop_first _ (0 + 1) 2) by lia.
  rewrite (@for_loop_empty _ (0 + 1 + 1) 2) by lia.
  rewrite (@for_loop_first _ (0 + 1) 2) by lia.
  rewrite (@for_loop_empty _ (0 + 1 + 1) 2) by lia.
  rewrite (@for_loop_empty _ (0 + 1 + 1) 2) by lia.
  change (0 + 1)%Z with 1%Z.
  unfold OSKAR_MULTIPLY_ADD_COMPLEX_CONJUGATE, add2, zero2. cbn [x y].
  rewrite !zero_add, !add_zero, !mul_one.
  unfold mul2. reflexivity.
Qed.

(** C6: with two stations the normalisation is [2/(2*1) = 1], and for
    every source [i] the beam value stored is the correlation
    [jones[0*num_sources+i] * conj(jones[1*num_sources+i])] of the one
    baseline (over arithmetic where adding zero and multiplying by one
    change nothing, and [2/2 = 1]). *)
Theorem cross_power_two_stations (num_sources : Z) (jones : Z -> complex2 F)
    (beam : buffer (complex2 F)) (i : Z) :
  (0 <= i < num_sources)%Z ->
  beam_norm 2 = (of_int 1 : F) /\
  cells (oskar_evaluate_average_scalar_cross_power_beam_omp num_sources 2 jones beam) i
  = mul2 (jones (CInt.add (CInt.mul 0 num_sources) i))
         (conj2 (jones (CInt.add (CInt.mul 1 num_sources) i))).
Proof.
  intros Hi. split; [exact beam_norm_two |].
  unfold oskar_evaluate_average_scalar_cross_power_beam_omp. cbv zeta.
  rewrite for_loop_store_inside by exact Hi.
  rewrite beam_norm_two. apply cross_power_at_two.
Qed.

End TwoStations.

Lemma cross_power_two_stations_witness :
  let jones := fun k : Z => mk2 (IZR k) (IZR (k + 1)) in
  cells (oskar_evaluate_average_scalar_cross_power_beam_omp 3 2 jones
           {| cells := fun _ => zero2; writes := [] |}) 1
  = mul2 (jones 1) (conj2 (jones 4)).
Proof.
  cbv zeta.
  apply (@cross_power_two_stations R _ RealLaws.real_zero_add RealLaws.real_add_zero
           RealLaws.real_mul_one RealLaws.real_two_over_two 3
           (fun k : Z => mk2 (IZR k) (IZR (k + 1)))
           {| cells := fun _ => zero2; writes := [] |} 1).
  lia.
Defined.

(** ** The average cross-power beam with fewer than two stations, in binary64 *)

(** In binary64 adding zero keeps every value; of the bit patterns only the
    sign of a negative zero is lost. *)
Example double_add_zero_signed :
  fadd (fneg (of_int 0)) (of_int 0) = (of_int 0 : float) /\
  feqb (fneg (of_int 0 : float)) (of_int 0) = true.
Proof. split; reflexivity. Qed.

Example beam_norm_two_stations_double :
  beam_norm (F := float) 2 = PrimFloat.one.
Proof. reflexivity. Qed.

Example beam_norm_one_station_double :
  beam_norm (F := float) 1 = PrimFloat.infinity.
Proof. reflexivity. Qed.

(** C9 (as amended): with zero or one station and at least one source the
    int product [num_stations * (num_stations - 1)] is zero, the
    normalisation [2.0 / 0] is infinity, and every beam entry of the range
    is stored as NaN ([0 * infinity]) in both components. *)
Theorem cross_power_degenerate_nan (num_sources num_stations : Z)
    (jones : Z -> complex2 float) (beam : buffer (complex2 float)) (i : Z) :
  0 <= num_stations <= 1 -> 0 <= i < num_sources ->
  CInt.mul num_stations (CInt.sub num_stations 1) = 0 /\
  beam_norm (F := float) num_stations = PrimFloat.infinity /\
  cells (Binary64.oskar_evaluate_average_scalar_cross_power_beam_omp_d
           num_sources num_stations jones beam) i
  = mk2 PrimFloat.nan PrimFloat.nan.
Proof.
  intros Hn Hi.
  unfold Binary64.oskar_evaluate_average_scalar_cross_power_beam_omp_d,
    oskar_evaluate_average_scalar_cross_power_beam_omp.
  cbv zeta. rewrite for_loop_store_inside by exact Hi.
  assert (Hcases : num_stations = 0 \/ num_stations = 1) by lia.
  destruct Hcases as [-> | ->]; repeat split; reflexivity.
Qed.

Lemma cross_power_degenerate_nan_witness :
  cells (Binary64.oskar_evaluate_average_scalar_cross_power_beam_omp_d 2 1
           (fun _ => mk2 PrimFloat.one PrimFloat.two)
           {| cells := fun _ => mk2 PrimFloat.one PrimFloat.one; writes := [] |}) 1
  = mk2 PrimFloat.nan PrimFloat.nan.
Proof.
  apply (@cross_power_degenerate_nan 2 1
           (fun _ => mk2 PrimFloat.one PrimFloat.two)
           {| cells := fun _ => mk2 PrimFloat.one PrimFloat.one; writes := [] |} 1);
    lia.
Defined.

(** With a negative station count the int product is positive: for
    [num_stations = -1] it is [2], the normalisation is [1.0], and the
    entry stored is zero, not NaN. *)
Lemma cross_power_negative_count :
  ~ (forall (num_sources num_stations : Z) (jones : Z -> complex2 float)
       (beam : buffer (complex2 float)) (i : Z),
       num_stations <= 1 -> 1 <= num_sources -> 0 <= i < num_sources ->
       cells (Binary64.oskar_evaluate_average_scalar_cross_power_beam_omp_d
                num_sources num_stations jones beam) i
       = mk2 PrimFloat.nan PrimFloat.nan).
Proof.
  intros H.
  specialize (H 1 (-1) (fun _ => mk2 PrimFloat.one PrimFloat.one)
                {| cells := fun _ => mk2 PrimFloat.one PrimFloat.one; writes := [] |} 0
                ltac:(lia) ltac:(lia) ltac:(lia)).
  apply (f_equal (fun v => PrimFloat.is_nan (x v))) in H.
  vm_compute in H. discriminate H.
Qed.

Example cross_power_negative_count_value :
  beam_norm (F := float) (-1) = PrimFloat.one /\
  cells (Binary64.oskar_evaluate_average_scalar_cross_power_beam_omp_d 1 (-1)
           (fun _ => mk2 PrimFloat.one PrimFloat.one)
           {| cells := fun _ => mk2 PrimFloat.one PrimFloat.one; writes := [] |}) 0
  = mk2 PrimFloat.zero PrimFloat.zero.
Proof. split; reflexivity. Qed.

(** ** Status propagation in the override of element position errors *)

Section StationStatus.

Context {F : Type} {ops : FloatOps F} {env : StationEnv F}.

(** A call entered with a status that is not zero changes nothing. *)
Lemma override_skipped (s : oskar_Station F) (err : F) (status : Z) (g : rng) :
  status <> 0 ->
  override_element_xy_position_errors s err status g = (s, status, g).
Proof.
  intros H. destruct s. cbn [override_element_xy_position_errors].
  apply Z.eqb_neq in H. rewrite H. reflexivity.
Qed.

Lemma override_bad_location (s : oskar_Station F) (err : F) (g : rng) :
  oskar_station_location s <> OSKAR_LOCATION_CPU ->
  override_element_xy_position_errors s err 0 g = (s, OSKAR_ERR_BAD_LOCATION, g).
Proof.
  intros H. destruct s. cbn [override_element_xy_position_errors].
  unfold oskar_station_location in H. cbn [location] in H.
  apply Z.eqb_neq in H. rewrite H. reflexivity.
Qed.

Lemma visit_children_skipped (err : F) (cs : list (oskar_Station F)) (n : nat)
    (status : Z) (g : rng) :
  status <> 0 ->
  visit_children (fun c => override_element_xy_position_errors c err) cs n status g
  = (cs, status, g).
Proof.
  intros H. revert n. induction cs as [| c rest IH]; intros n.
  - reflexivity.
  - destruct n as [| n]; [reflexivity |].
    cbn [visit_children]. rewrite override_skipped by exact H.
    rewrite IH. reflexivity.
Qed.

(** The traversal up to and including the first child whose call leaves a
    status that is not zero. *)
Lemma visit_children_first_failure (err : F) (pre post : list (oskar_Station F))
    (c c' : oskar_Station F) (pre' : list (oskar_Station F)) (n : nat)
    (e : Z) (g g1 g2 : rng) :
  (length pre < n)%nat ->
  visit_children (fun c => override_element_xy_position_errors c err)
    pre (length pre) 0 g = (pre', 0, g1) ->
  override_element_xy_position_errors c err 0 g1 = (c', e, g2) ->
  e <> 0 ->
  visit_children (fun c => override_element_xy_position_errors c err)
    (pre ++ c :: post) n 0 g = (pre' ++ c' :: post, e, g2).
Proof.
  revert pre' n g. induction pre as [| d pre IH]; intros pre' n g Hn Hpre Hc He.
  - cbn [length visit_children] in Hpre. inversion Hpre; subst.
    destruct n as [| n]; [inversion Hn |].
    cbn [app visit_children]. rewrite Hc.
    rewrite visit_children_skipped by exact He. reflexivity.
  - destruct n as [| n]; [inversion Hn |].
    cbn [length visit_children] in Hpre. cbn [app visit_children].
    destruct (override_element_xy_position_errors d err 0 g) as [[d' ed] gd] eqn:Ed.
    destruct (Z.eq_dec ed 0) as [-> | Hed].
    + destruct (visit_children (fun c => override_element_xy_position_errors c err)
                  pre (length pre) 0 gd) as [[rest' er] gr] eqn:Er.
      inversion Hpre; subst.
      rewrite (IH rest' n gd); [reflexivity | cbn [length] in Hn; lia | exact Er | exact Hc | exact He].
    + rewrite visit_children_skipped in Hpre by exact Hed.
      inversion Hpre; subst. contradiction.
Qed.

(** C8: the function is total and returns its outcome in the status.
    Entered with a status that is not zero it returns the station and the
    status as they were; on a station that is not in CPU memory it sets
    [OSKAR_ERR_BAD_LOCATION] and returns the station as it was; and in the
    traversal of the children of a station, when the children before [c]
    leave the status at zero and the call on [c] leaves [e <> 0], every
    child after [c] is returned as it was and the status returned is [e]. *)
Theorem override_status_propagation (s : oskar_Station F) (err : F) (g : rng) :
  (forall status, status <> 0 ->
     oskar_station_override_element_xy_position_errors (Some s) err (Some status) g
     = (Some s, Some status, g)) /\
  (oskar_station_location s <> OSKAR_LOCATION_CPU ->
     oskar_station_override_element_xy_position_errors (Some s) err (Some 0) g
     = (Some s, Some OSKAR_ERR_BAD_LOCATION, g)) /\
  (forall pre c post pre' c' e g1 g2,
     oskar_station_location s = OSKAR_LOCATION_CPU ->
     child s = Some (pre ++ c :: post) ->
     Z.of_nat (length pre) < num_elements s ->
     visit_children (fun c => override_element_xy_position_errors c err)
       pre (length pre) 0 g = (pre', 0, g1) ->
     override_element_xy_position_errors c err 0 g1 = (c', e, g2) ->
     e <> 0 ->
     oskar_station_override_element_xy_position_errors (Some s) err (Some 0) g
     = (Some (mk_station (location s) (element_type s) (num_elements s)
                (x_signal s) (y_signal s) (x_weights s) (y_weights s)
                (Some (pre' ++ c' :: post))),
        Some e, g2)).
Proof.
  repeat apply conj.
  - intros status H. unfold oskar_station_override_element_xy_position_errors.
    rewrite override_skipped by exact H. reflexivity.
  - intros H. unfold oskar_station_override_element_xy_position_errors.
    rewrite override_bad_location by exact H. reflexivity.
  - intros pre c post pre' c' e g1 g2 Hloc Hch Hn Hpre Hc He.
    unfold oskar_station_override_element_xy_position_errors.
    destruct s as [loc type n xsig ysig xwei ywei ch].
    unfold oskar_station_location in Hloc. cbn [location child num_elements] in *.
    subst ch loc.
    cbn [override_element_xy_position_errors location element_type num_elements
         x_signal y_signal x_weights y_weights].
    change (0 =? 0) with true. rewrite Z.eqb_refl. cbn [negb].
    rewrite (@visit_children_first_failure err pre post c c' pre' (Z.to_nat n) e g g1 g2);
      [reflexivity | lia | exact Hpre | exact Hc | exact He].
Qed.

(** C10: at a leaf station in CPU memory whose element type is neither
    [OSKAR_DOUBLE] nor [OSKAR_SINGLE], a call entered with status zero
    returns the station as it was, the generator untouched, and the status
    still zero. *)
Theorem override_unknown_type_noop (s : oskar_Station F) (err : F) (g : rng) :
  oskar_station_has_child s = false ->
  oskar_station_location s = OSKAR_LOCATION_CPU ->
  oskar_station_type s <> OSKAR_DOUBLE ->
  oskar_station_type s <> OSKAR_SINGLE ->
  oskar_station_override_element_xy_position_errors (Some s) err (Some 0) g
  = (Some s, Some 0, g).
Proof.
  intros Hleaf Hloc Hd Hs.
  destruct s as [loc type n xsig ysig xwei ywei ch].
  unfold oskar_station_has_child, oskar_station_location, oskar_station_type in *.
  cbn [location child element_type] in *.
  destruct ch as [cs |]; [discriminate Hleaf |].
  unfold oskar_station_override_element_xy_position_errors.
  cbn [override_element_xy_position_errors].
  subst loc. change (0 =? 0) with true. rewrite Z.eqb_refl. cbn [negb].
  apply Z.eqb_neq in Hd. apply Z.eqb_neq in Hs. rewrite Hd, Hs. reflexivity.
Qed.

End StationStatus.

Example override_cpu_leaf :
  oskar_station_override_element_xy_position_errors (Some cpu_leaf) unit_error (Some 0) 0
  = (Some (leaf 0 8 [10; 22] [31; 43]), Some 0, 4).
Proof. reflexivity. Qed.

Example override_tree :
  oskar_station_override_element_xy_position_errors
    (Some (parent [cpu_leaf; gpu_leaf; cpu_leaf])) unit_error (Some 0) 0
  = (Some (parent [leaf 0 8 [10; 22] [31; 43]; gpu_leaf; cpu_leaf]), Some (-11), 4).
Proof. reflexivity. Qed.

Example override_null_station :
  oskar_station_override_element_xy_position_errors None unit_error (Some 0) 0
  = (None, Some (-3), 0).
Proof. reflexivity. Qed.

Lemma override_status_propagation_witness :
  oskar_station_override_element_xy_position_errors
    (Some (parent [cpu_leaf; gpu_leaf; cpu_leaf])) unit_error (Some (-6)) 0
  = (Some (parent [cpu_leaf; gpu_leaf; cpu_leaf]), Some (-6), 0) /\
  oskar_station_override_element_xy_position_errors (Some gpu_leaf) unit_error (Some 0) 0
  = (Some gpu_leaf, Some (-11), 0) /\
  oskar_station_override_element_xy_position_errors
    (Some (parent [cpu_leaf; gpu_leaf; cpu_leaf])) unit_error (Some 0) 0
  = (Some (parent [leaf 0 8 [10; 22] [31; 43]; gpu_leaf; cpu_leaf]), Some (-11), 4).
Proof.
  destruct (@override_status_propagation float _ sample_env
              (parent [cpu_leaf; gpu_leaf; cpu_leaf]) unit_error 0) as [HA [_ HC]].
  destruct (@override_status_propagation float _ sample_env
              gpu_leaf unit_error 0) as [_ [HB _]].
  split; [| split].
  - apply HA. discriminate.
  - apply HB. discriminate.
  - apply (HC [cpu_leaf] gpu_leaf [cpu_leaf] [leaf 0 8 [10; 22] [31; 43]] gpu_leaf (-11) 4 4).
    + reflexivity.
    + reflexivity.
    + reflexivity.
    + reflexivity.
    + reflexivity.
    + discriminate.
Defined.

Lemma override_unknown_type_noop_witness :
  oskar_station_override_element_xy_position_errors (Some int_leaf) unit_error (Some 0) 0
  = (Some int_leaf, Some 0, 0).
Proof.
  apply (@override_unknown_type_noop float _ sample_env int_leaf unit_error 0).
  - reflexivity.
  - reflexivity.
  - discriminate.
  - discriminate.
Defined.

(** ** The kernels run on binary64 inputs *)

(** Two stations with Jones values [1+2i] and [3+4i] for the one source:
    [(1+2i) * conj(3+4i) = 11+2i]. *)
Example cross_power_two_stations_double :
  cells (Binary64.oskar_evaluate_average_scalar_cross_power_beam_omp_d 1 2
           (fun k => if k =? 0 then mk2 1%float 2%float else mk2 3%float 4%float)
           {| cells := fun _ => zero2; writes := [] |}) 0
  = mk2 11%float 2%float.
Proof. reflexivity. Qed.

(** The scenario of the specification: three stations, one source at the
    phase centre with Stokes [I = 1], [Q = U = V = 0], identity Jones
    matrices and zero bandwidth give the unit diagonal visibility on each of
    the three baselines (with an [exp] that is [1] at [-0]). *)
Example gaussian_three_stations_double :
  let e := fun _ : float => PrimFloat.one in
  let vis :=
    oskar_correlate_gaussian_omp_d (libm := DoublingBinary64.c_library e e) 1 3
      DoublingBinary64.jones (fun _ => PrimFloat.one)
      DoublingBinary64.zeros DoublingBinary64.zeros DoublingBinary64.zeros
      DoublingBinary64.zeros DoublingBinary64.zeros
      DoublingBinary64.zeros DoublingBinary64.zeros DoublingBinary64.zeros
      DoublingBinary64.station_u DoublingBinary64.zeros
      PrimFloat.one PrimFloat.zero DoublingBinary64.vis0 in
  map (cells vis) [0; 1; 2]
  = [DoublingBinary64.identity4c; DoublingBinary64.identity4c; DoublingBinary64.identity4c]
  /\ writes vis = [2; 1; 0].
Proof. split; reflexivity. Qed.

(** * Part III: further properties of the kernels *)

(** Implicit arguments are found without normalising the statements (which
    would unfold the wrapped index formula). *)
Unset Strict Implicit.

(** ** More on counted loops and stores *)

Section IndexedLoops.

Variable S : Type.

(** An invariant that may mention the loop counter. *)
Lemma for_loop_invariant_indexed (P : Z -> S -> Prop) lo hi (body : Z -> S -> S) s :
  lo <= hi -> P lo s ->
  (forall j t, lo <= j < hi -> P j t -> P (j + 1) (body j t)) ->
  P hi (for_loop lo hi body s).
Proof.
  intros Hle Hs Hstep.
  assert (Hgen : forall (n : nat) lo' s',
    P lo' s' ->
    (forall j t, lo' <= j < lo' + Z.of_nat n -> P j t -> P (j + 1) (body j t)) ->
    P (lo' + Z.of_nat n) (iterate_from n lo' body s')).
  { induction n as [| n IH]; intros lo' s' Hs' Hstep'.
    - replace (lo' + Z.of_nat 0) with lo' by lia. exact Hs'.
    - cbn [iterate_from].
      replace (lo' + Z.of_nat (Datatypes.S n)) with (lo' + 1 + Z.of_nat n) by lia.
      apply IH.
      + apply Hstep'; [lia | exact Hs'].
      + intros j t Hj. apply Hstep'. lia. }
  unfold for_loop.
  replace hi with (lo + Z.of_nat (Z.to_nat (hi - lo))) at 1 by lia.
  apply Hgen; [exact Hs |].
  intros j t Hj. apply Hstep. lia.
Qed.

End IndexedLoops.

Lemma indices_from_length (lo : Z) (n : nat) : length (indices_from lo n) = n.
Proof.
  revert lo. induction n as [| n IH]; intros lo; [reflexivity |].
  cbn [indices_from length]. rewrite IH. reflexivity.
Qed.

Lemma indices_from_app (lo : Z) (n m : nat) :
  indices_from lo (n + m) = indices_from lo n ++ indices_from (lo + Z.of_nat n) m.
Proof.
  revert lo. induction n as [| n IH]; intros lo.
  - cbn [Nat.add indices_from app]. f_equal; lia.
  - cbn [Nat.add indices_from app]. rewrite IH. do 3 f_equal. lia.
Qed.

Lemma indices_from_In (lo : Z) (n : nat) (k : Z) :
  In k (indices_from lo n) <-> lo <= k < lo + Z.of_nat n.
Proof.
  revert lo. induction n as [| n IH]; intros lo.
  - cbn [indices_from In]. lia.
  - cbn [indices_from In]. rewrite IH. lia.
Qed.

Lemma indices_from_NoDup (lo : Z) (n : nat) : NoDup (indices_from lo n).
Proof.
  revert lo. induction n as [| n IH]; intros lo.
  - constructor.
  - cbn [indices_from]. constructor; [| apply IH].
    rewrite indices_from_In. lia.
Qed.

(** A map that sends the range to consecutive values from [base] on. *)
Lemma map_indices_consecutive (f : Z -> Z) (lo base : Z) (n : nat) :
  (forall k, lo <= k < lo + Z.of_nat n -> f k = base + (k - lo)) ->
  map f (indices_from lo n) = indices_from base n.
Proof.
  revert lo base. induction n as [| n IH]; intros lo base H; [reflexivity |].
  cbn [indices_from map]. f_equal.
  - rewrite H by lia. lia.
  - apply IH. intros k Hk. rewrite H by lia. lia.
Qed.

Section StoreLoops.

Variable A : Type.

(** The write log of a loop that makes one store per iteration. *)
Lemma writes_store_loop (f : Z -> Z) (v : Z -> buffer A -> A) lo hi (buf : buffer A) :
  writes (for_loop lo hi (fun i b => store b (f i) (v i b)) buf)
  = rev (map f (indices_from lo (Z.to_nat (hi - lo)))) ++ writes buf.
Proof.
  unfold for_loop. generalize (Z.to_nat (hi - lo)) as n. intros n.
  revert lo buf. induction n as [| n IH]; intros lo buf; [reflexivity |].
  cbn [iterate_from indices_from map rev]. rewrite IH.
  cbn [store writes]. rewrite <- app_assoc. reflexivity.
Qed.

(** A cell that no iteration addresses keeps its value. *)
Lemma cells_store_loop_miss (f : Z -> Z) (v : Z -> buffer A -> A) lo hi
    (buf : buffer A) (j : Z) :
  (forall i, lo <= i < hi -> f i <> j) ->
  cells (for_loop lo hi (fun i b => store b (f i) (v i b)) buf) j = cells buf j.
Proof.
  intros H.
  apply (for_loop_invariant (fun b => cells b j = cells buf j)); [reflexivity |].
  intros i b Hi Hb. rewrite cells_store_other; [exact Hb |].
  intros E. apply (H i Hi). symmetry. exact E.
Qed.

(** A cell that exactly one iteration addresses is updated once. *)
Lemma cells_store_loop_hit (f : Z -> Z) (h : Z -> A -> A) lo hi (buf : buffer A) (i : Z) :
  lo <= i < hi ->
  (forall k, lo <= k < hi -> f k = f i -> k = i) ->
  cells (for_loop lo hi (fun k b => store b (f k) (h k (cells b (f k)))) buf) (f i)
  = h i (cells buf (f i)).
Proof.
  intros Hi Hinj.
  rewrite (@for_loop_split _ lo (i + 1) hi) by lia.
  rewrite (@cells_store_loop_miss f (fun k b => h k (cells b (f k))))
    by (intros k Hk E; specialize (Hinj k ltac:(lia) E); lia).
  rewrite (@for_loop_split _ lo i (i + 1)) by lia.
  rewrite (@for_loop_first _ i (i + 1)) by lia.
  rewrite for_loop_empty by lia.
  rewrite cells_store_same.
  rewrite (@cells_store_loop_miss f (fun k b => h k (cells b (f k))))
    by (intros k Hk E; specialize (Hinj k ltac:(lia) E); lia).
  reflexivity.
Qed.

End StoreLoops.

(** ** The pass over the baselines *)

Lemma vis_index_in_range (n q p : Z) :
  n <= 46343 -> 0 <= q < p -> p < n ->
  0 <= vis_index n q p < total_baselines n.
Proof.
  intros Hn Hq Hp. rewrite vis_index_ideal by lia. apply ideal_index_range; lia.
Qed.

Lemma vis_index_injective (n q p q' p' : Z) :
  n <= 46343 -> 0 <= q < p -> p < n -> 0 <= q' < p' -> p' < n ->
  vis_index n q p = vis_index n q' p' -> q = q' /\ p = p'.
Proof.
  intros Hn Hq Hp Hq' Hp' E. rewrite !vis_index_ideal in E by lia.
  exact (ideal_index_inj Hq Hp Hq' Hp' E).
Qed.

Lemma row_start_nonneg (n q : Z) : 0 <= q <= n - 1 -> 0 <= row_start n q.
Proof.
  intros Hq. pose proof (@row_start_mono n 0 q ltac:(lia) ltac:(lia)) as H.
  unfold row_start at 1 in H. unfold triangle in H. simpl in H. lia.
Qed.

Section BaselinePass.

Context {F : Type} {ops : FloatOps F}.

Variable num_stations : Z.
Variable contrib : Z -> Z -> complex4c F.

(** The rows [lo .. hi-1] of the pass leave alone every cell that none of
    their baselines addresses. *)
Lemma rows_miss (lo hi : Z) (vis : buffer (complex4c F)) (j : Z) :
  (forall q p, lo <= q < hi -> q < p < num_stations ->
     vis_index num_stations q p <> j) ->
  cells
    (for_loop lo hi
       (fun station_q vis =>
          for_loop (station_q + 1) num_stations
            (fun station_p vis =>
               let i := vis_index num_stations station_q station_p in
               store vis i (add4c (cells vis i) (contrib station_q station_p)))
            vis)
       vis) j
  = cells vis j.
Proof.
  intros H.
  apply (for_loop_invariant (fun b => cells b j = cells vis j)); [reflexivity |].
  intros q b Hq Hb. cbv zeta.
  rewrite (@cells_store_loop_miss _ (vis_index num_stations q)
             (fun p b => add4c (cells b (vis_index num_stations q p)) (contrib q p))
             (q + 1) num_stations b j)
    by (intros p Hp; apply H; lia).
  exact Hb.
Qed.

Lemma accumulate_baselines_miss (vis : buffer (complex4c F)) (j : Z) :
  (forall q p, 0 <= q < p -> p < num_stations -> vis_index num_stations q p <> j) ->
  cells (accumulate_baselines num_stations contrib vis) j = cells vis j.
Proof.
  intros H. unfold accumulate_baselines. apply rows_miss.
  intros q p Hq Hp. apply H; lia.
Qed.

Lemma accumulate_baselines_hit (vis : buffer (complex4c F)) (q p : Z) :
  num_stations <= 46343 -> 0 <= q < p -> p < num_stations ->
  cells (accumulate_baselines num_stations contrib vis) (vis_index num_stations q p)
  = add4c (cells vis (vis_index num_stations q p)) (contrib q p).
Proof.
  intros Hn Hq Hp. unfold accumulate_baselines.
  rewrite (@for_loop_split _ 0 (q + 1) num_stations) by lia.
  rewrite rows_miss.
  2:{ intros q' p' Hq' Hp' E.
      destruct (@vis_index_injective num_stations q' p' q p) as [E1 _]; try lia. }
  rewrite (@for_loop_split _ 0 q (q + 1)) by lia.
  rewrite (@for_loop_first _ q (q + 1)) by lia.
  rewrite (@for_loop_empty _ (q + 1) (q + 1)) by lia.
  cbv zeta.
  rewrite (@cells_store_loop_hit _ (vis_index num_stations q)
             (fun p c => add4c c (contrib q p)) (q + 1) num_stations _ p).
  2:{ lia. }
  2:{ intros p' Hp' E.
      destruct (@vis_index_injective num_stations q p' q p) as [_ E2]; try lia. }
  rewrite rows_miss; [reflexivity |].
  intros q' p' Hq' Hp' E.
  destruct (@vis_index_injective num_stations q' p' q p) as [E1 _]; try lia.
Qed.

Lemma accumulate_baselines_writes (vis : buffer (complex4c F)) :
  0 <= num_stations <= 46343 ->
  writes (accumulate_baselines num_stations contrib vis)
  = rev (indices_from 0 (Z.to_nat (total_baselines num_stations))) ++ writes vis.
Proof.
  intros Hn. unfold accumulate_baselines.
  assert (Hend : row_start num_stations num_stations = total_baselines num_stations).
  { destruct (Z.eq_dec num_stations 0) as [-> | Hne]; [reflexivity |].
    replace num_stations with (num_stations - 1 + 1) at 2 by lia.
    rewrite row_start_succ by lia. rewrite row_start_last by lia. lia. }
  rewrite <- Hend.
  apply (@for_loop_invariant_indexed _
           (fun q b => writes b
                       = rev (indices_from 0 (Z.to_nat (row_start num_stations q)))
                         ++ writes vis)).
  - lia.
  - reflexivity.
  - intros q b Hq Hb. cbv zeta.
    rewrite (@writes_store_loop _ (vis_index num_stations q)
               (fun p b => add4c (cells b (vis_index num_stations q p)) (contrib q p))
               (q + 1) num_stations b).
    rewrite Hb.
    rewrite (@map_indices_consecutive (vis_index num_stations q) (q + 1)
               (row_start num_stations q) (Z.to_nat (num_stations - (q + 1)))).
    2:{ intros p Hp. rewrite vis_index_ideal by lia. unfold ideal_index. lia. }
    rewrite row_start_succ by lia.
    pose proof (@row_start_nonneg num_stations q ltac:(lia)) as Hrs.
    replace (Z.to_nat (row_start num_stations q + (num_stations - 1 - q)))
      with (Z.to_nat (row_start num_stations q)
            + Z.to_nat (num_stations - (q + 1)))%nat by lia.
    rewrite indices_from_app, rev_app_distr, app_assoc.
    rewrite Z2Nat.id by lia. reflexivity.
Qed.

End BaselinePass.

(** ** What the Gaussian correlators write, and where *)

Section GaussianOutput.

Context {F : Type} {ops : FloatOps F} {libm : LibM F}.

Variables (num_sources num_stations : Z).
Variable jones : Z -> complex4c F.
Variables source_I source_Q source_U source_V : Z -> F.
Variables source_l source_m source_a source_b source_c : Z -> F.
Variables station_u station_v : Z -> F.
Variables inv_wavelength frac_bandwidth : F.

Let run_d := oskar_correlate_gaussian_omp_d num_sources num_stations jones
  source_I source_Q source_U source_V source_l source_m
  source_a source_b source_c station_u station_v inv_wavelength frac_bandwidth.

Let run_f := oskar_correlate_gaussian_omp_f num_sources num_stations jones
  source_I source_Q source_U source_V source_l source_m
  source_a source_b source_c station_u station_v inv_wavelength frac_bandwidth.

Let sum_d := baseline_sum_d num_sources jones
  source_I source_Q source_U source_V source_l source_m
  source_a source_b source_c station_u station_v inv_wavelength frac_bandwidth.

Let sum_f := fun station_q station_p =>
  fst (baseline_sum_f num_sources jones
         source_I source_Q source_U source_V source_l source_m
         source_a source_b source_c station_u station_v inv_wavelength frac_bandwidth
         station_q station_p).

(** X1: for up to 46343 stations each correlator makes exactly one store per
    baseline; with the iterations taken in the order of the text the stores
    go to the slots [0, 1, ..., num_stations*(num_stations-1)/2 - 1] in
    this order.  No slot is written twice, so two iterations of the station
    loop never store to the same slot, and none is skipped. *)
Theorem gaussian_writes_in_order (vis : buffer (complex4c F)) :
  0 <= num_stations <= 46343 ->
  let slots := indices_from 0 (Z.to_nat (total_baselines num_stations)) in
  writes (run_d vis) = rev slots ++ writes vis /\
  writes (run_f vis) = rev slots ++ writes vis /\
  NoDup slots /\ length slots = Z.to_nat (total_baselines num_stations).
Proof.
  intros Hn. cbv zeta. repeat apply conj.
  - exact (accumulate_baselines_writes sum_d vis Hn).
  - exact (accumulate_baselines_writes sum_f vis Hn).
  - apply indices_from_NoDup.
  - apply indices_from_length.
Qed.

(** X2: for up to 46343 stations, after a call the slot of the baseline
    [(station_q, station_p)] holds its value before the call plus the local
    sum of that baseline over the sources, and every cell outside
    [[0, num_stations*(num_stations-1)/2)] holds what it held before. *)
Theorem gaussian_output_cells (vis : buffer (complex4c F)) :
  num_stations <= 46343 ->
  (forall station_q station_p,
     0 <= station_q < station_p -> station_p < num_stations ->
     let i := vis_index num_stations station_q station_p in
     cells (run_d vis) i = add4c (cells vis i) (sum_d station_q station_p) /\
     cells (run_f vis) i = add4c (cells vis i) (sum_f station_q station_p)) /\
  (forall j, ~ 0 <= j < total_baselines num_stations ->
     cells (run_d vis) j = cells vis j /\ cells (run_f vis) j = cells vis j).
Proof.
  intros Hn. split.
  - intros q p Hq Hp. cbv zeta. split.
    + exact (accumulate_baselines_hit sum_d vis Hn Hq Hp).
    + exact (accumulate_baselines_hit sum_f vis Hn Hq Hp).
  - intros j Hj.
    assert (Hmiss : forall q p, 0 <= q < p -> p < num_stations ->
                      vis_index num_stations q p <> j).
    { intros q p Hq Hp E.
      pose proof (@vis_index_in_range num_stations q p Hn Hq Hp). lia. }
    split.
    + exact (accumulate_baselines_miss sum_d vis Hmiss).
    + exact (accumulate_baselines_miss sum_f vis Hmiss).
Qed.

End GaussianOutput.

(** ** Successive calls, and the inputs a call reads *)

Section GaussianTwoInputs.

Context {F : Type} {ops : FloatOps F} {libm : LibM F}.

Local Open Scope fl_scope.

Variable num_stations : Z.
Variables num_sources num_sources' : Z.
Variables jones jones' : Z -> complex4c F.
Variables source_I source_Q source_U source_V : Z -> F.
Variables source_l source_m source_a source_b source_c : Z -> F.
Variables source_I' source_Q' source_U' source_V' : Z -> F.
Variables source_l' source_m' source_a' source_b' source_c' : Z -> F.
Variables station_u station_v station_u' station_v' : Z -> F.
Variables inv_wavelength frac_bandwidth : F.

(** X3: two calls on the same buffer, one per batch of sources, accumulate:
    for up to 46343 stations the slot of a baseline ends with its first
    value, plus the local sum of the first batch, plus the local sum of the
    second batch. *)
Theorem gaussian_batches_accumulate (vis : buffer (complex4c F))
    (station_q station_p : Z) :
  num_stations <= 46343 ->
  0 <= station_q < station_p -> station_p < num_stations ->
  let first := oskar_correlate_gaussian_omp_d num_sources num_stations jones
    source_I source_Q source_U source_V source_l source_m
    source_a source_b source_c station_u station_v inv_wavelength frac_bandwidth in
  let second := oskar_correlate_gaussian_omp_d num_sources' num_stations jones'
    source_I' source_Q' source_U' source_V' source_l' source_m'
    source_a' source_b' source_c' station_u' station_v' inv_wavelength frac_bandwidth in
  let i := vis_index num_stations station_q station_p in
  cells (second (first vis)) i
  = add4c
      (add4c (cells vis i)
         (baseline_sum_d num_sources jones
            source_I source_Q source_U source_V source_l source_m
            source_a source_b source_c station_u station_v
            inv_wavelength frac_bandwidth station_q station_p))
      (baseline_sum_d num_sources' jones'
         source_I' source_Q' source_U' source_V' source_l' source_m'
         source_a' source_b' source_c' station_u' station_v'
         inv_wavelength frac_bandwidth station_q station_p).
Proof.
  intros Hn Hq Hp. cbv zeta.
  unfold oskar_correlate_gaussian_omp_d at 1.
  fold (accumulate_baselines num_stations
          (baseline_sum_d num_sources' jones'
             source_I' source_Q' source_U' source_V' source_l' source_m'
             source_a' source_b' source_c' station_u' station_v'
             inv_wavelength frac_bandwidth)
          (oskar_correlate_gaussian_omp_d num_sources num_stations jones
             source_I source_Q source_U source_V source_l source_m
             source_a source_b source_c station_u station_v
             inv_wavelength frac_bandwidth vis)).
  rewrite accumulate_baselines_hit by assumption.
  f_equal.
  exact (accumulate_baselines_hit
           (baseline_sum_d num_sources jones
              source_I source_Q source_U source_V source_l source_m
              source_a source_b source_c station_u station_v
              inv_wavelength frac_bandwidth) vis Hn Hq Hp).
Qed.

(** The two sets of inputs agree wherever a call with [num_sources] sources
    and [num_stations] stations reads them. *)
Hypothesis jones_agree :
  forall s, 0 <= s < num_stations ->
    agree_on num_sources (offset jones (CInt.mul s num_sources))
      (offset jones' (CInt.mul s num_sources)).
Hypothesis I_agree : agree_on num_sources source_I source_I'.
Hypothesis Q_agree : agree_on num_sources source_Q source_Q'.
Hypothesis U_agree : agree_on num_sources source_U source_U'.
Hypothesis V_agree : agree_on num_sources source_V source_V'.
Hypothesis l_agree : agree_on num_sources source_l source_l'.
Hypothesis m_agree : agree_on num_sources source_m source_m'.
Hypothesis a_agree : agree_on num_sources source_a source_a'.
Hypothesis b_agree : agree_on num_sources source_b source_b'.
Hypothesis c_agree : agree_on num_sources source_c source_c'.
Hypothesis u_agree : agree_on num_stations station_u station_u'.
Hypothesis v_agree : agree_on num_stations station_v station_v'.

Lemma baseline_sum_d_agree (station_q station_p : Z) :
  0 <= station_q < num_stations -> 0 <= station_p < num_stations ->
  baseline_sum_d num_sources jones source_I source_Q source_U source_V
    source_l source_m source_a source_b source_c station_u station_v
    inv_wavelength frac_bandwidth station_q station_p
  = baseline_sum_d num_sources jones' source_I' source_Q' source_U' source_V'
      source_l' source_m' source_a' source_b' source_c' station_u' station_v'
      inv_wavelength frac_bandwidth station_q station_p.
Proof.
  intros Hq Hp. unfold baseline_sum_d, baseline_terms. cbv zeta.
  rewrite <- (u_agree Hq), <- (u_agree Hp), <- (v_agree Hq), <- (v_agree Hp).
  apply for_loop_ext. intros i sum Hi.
  unfold oskar_accumulate_baseline_visibility_for_source_d, source_term, source_weight.
  pose proof (jones_agree Hq Hi) as Jq. pose proof (jones_agree Hp Hi) as Jp.
  rewrite <- Jq, <- Jp, <- (I_agree Hi), <- (Q_agree Hi), <- (U_agree Hi),
    <- (V_agree Hi), <- (l_agree Hi), <- (m_agree Hi), <- (a_agree Hi),
    <- (b_agree Hi), <- (c_agree Hi).
  reflexivity.
Qed.

Lemma baseline_sum_f_agree (station_q station_p : Z) :
  0 <= station_q < num_stations -> 0 <= station_p < num_stations ->
  baseline_sum_f num_sources jones source_I source_Q source_U source_V
    source_l source_m source_a source_b source_c station_u station_v
    inv_wavelength frac_bandwidth station_q station_p
  = baseline_sum_f num_sources jones' source_I' source_Q' source_U' source_V'
      source_l' source_m' source_a' source_b' source_c' station_u' station_v'
      inv_wavelength frac_bandwidth station_q station_p.
Proof.
  intros Hq Hp. unfold baseline_sum_f, baseline_terms. cbv zeta.
  rewrite <- (u_agree Hq), <- (u_agree Hp), <- (v_agree Hq), <- (v_agree Hp).
  apply for_loop_ext. intros i acc Hi.
  unfold oskar_accumulate_baseline_visibility_for_source_f, source_term, source_weight.
  pose proof (jones_agree Hq Hi) as Jq. pose proof (jones_agree Hp Hi) as Jp.
  rewrite <- Jq, <- Jp, <- (I_agree Hi), <- (Q_agree Hi), <- (U_agree Hi),
    <- (V_agree Hi), <- (l_agree Hi), <- (m_agree Hi), <- (a_agree Hi),
    <- (b_agree Hi), <- (c_agree Hi).
  reflexivity.
Qed.

(** X4: a call reads station coordinates only at the indices
    [0 .. num_stations-1], per-source arrays only at [0 .. num_sources-1],
    and of the Jones array only the first [num_sources] entries of each
    station's row: inputs that agree there give the same buffer, whatever
    they hold elsewhere. *)
Theorem gaussian_reads_within_counts (vis : buffer (complex4c F)) :
  oskar_correlate_gaussian_omp_d num_sources num_stations jones
    source_I source_Q source_U source_V source_l source_m
    source_a source_b source_c station_u station_v inv_wavelength frac_bandwidth vis
  = oskar_correlate_gaussian_omp_d num_sources num_stations jones'
      source_I' source_Q' source_U' source_V' source_l' source_m'
      source_a' source_b' source_c' station_u' station_v'
      inv_wavelength frac_bandwidth vis /\
  oskar_correlate_gaussian_omp_f num_sources num_stations jones
    source_I source_Q source_U source_V source_l source_m
    source_a source_b source_c station_u station_v inv_wavelength frac_bandwidth vis
  = oskar_correlate_gaussian_omp_f num_sources num_stations jones'
      source_I' source_Q' source_U' source_V' source_l' source_m'
      source_a' source_b' source_c' station_u' station_v'
      inv_wavelength frac_bandwidth vis.
Proof.
  split.
  - unfold oskar_correlate_gaussian_omp_d.
    apply for_loop_ext. intros q buf Hq.
    apply for_loop_ext. intros p buf' Hp. cbv zeta.
    rewrite baseline_sum_d_agree by lia. reflexivity.
  - unfold oskar_correlate_gaussian_omp_f.
    apply for_loop_ext. intros q buf Hq.
    apply for_loop_ext. intros p buf' Hp. cbv zeta.
    rewrite baseline_sum_f_agree by lia. reflexivity.
Qed.

End GaussianTwoInputs.

(** ** Only the differences of station coordinates are read *)

Section GaussianTranslation.

Context {F : Type} {ops : FloatOps F} {libm : LibM F}.

Local Open Scope fl_scope.

Variables (num_sources num_stations : Z).
Variable jones : Z -> complex4c F.
Variables source_I source_Q source_U source_V : Z -> F.
Variables source_l source_m source_a source_b source_c : Z -> F.
Variables station_u station_v : Z -> F.
Variables inv_wavelength frac_bandwidth : F.
Variables shift_u shift_v : F.

Hypothesis sub_add_cancel : forall u v w : F, (u + w) - (v + w) = u - v.

Lemma baseline_terms_shifted (station_q station_p : Z) :
  baseline_terms (fun k => station_u k + shift_u) (fun k => station_v k + shift_v)
    inv_wavelength frac_bandwidth station_q station_p
  = baseline_terms station_u station_v inv_wavelength frac_bandwidth
      station_q station_p.
Proof.
  unfold baseline_terms. cbv zeta. rewrite !sub_add_cancel. reflexivity.
Qed.

(** X11: the station coordinates enter only through the differences of
    lines 92-93 and 184-185: over arithmetic where [(u + w) - (v + w)]
    is [u - v], moving every station by the same offset gives the same
    buffer, in both precisions. *)
Theorem gaussian_translation_invariant (vis : buffer (complex4c F)) :
  oskar_correlate_gaussian_omp_d num_sources num_stations jones
    source_I source_Q source_U source_V source_l source_m
    source_a source_b source_c
    (fun k => station_u k + shift_u) (fun k => station_v k + shift_v)
    inv_wavelength frac_bandwidth vis
  = oskar_correlate_gaussian_omp_d num_sources num_stations jones
      source_I source_Q source_U source_V source_l source_m
      source_a source_b source_c station_u station_v
      inv_wavelength frac_bandwidth vis /\
  oskar_correlate_gaussian_omp_f num_sources num_stations jones
    source_I source_Q source_U source_V source_l source_m
    source_a source_b source_c
    (fun k => station_u k + shift_u) (fun k => station_v k + shift_v)
    inv_wavelength frac_bandwidth vis
  = oskar_correlate_gaussian_omp_f num_sources num_stations jones
      source_I source_Q source_U source_V source_l source_m
      source_a source_b source_c station_u station_v
      inv_wavelength frac_bandwidth vis.
Proof.
  split.
  - unfold oskar_correlate_gaussian_omp_d.
    apply for_loop_ext. intros q buf Hq.
    apply for_loop_ext. intros p buf' Hp. cbv zeta.
    unfold baseline_sum_d. cbv zeta.
    rewrite baseline_terms_shifted. reflexivity.
  - unfold oskar_correlate_gaussian_omp_f.
    apply for_loop_ext. intros q buf Hq.
    apply for_loop_ext. intros p buf' Hp. cbv zeta.
    unfold baseline_sum_f. cbv zeta.
    rewrite baseline_terms_shifted. reflexivity.
Qed.

End GaussianTranslation.

(** ** What the cross-power beam kernel writes and reads *)

Section BeamOutput.

Context {F : Type} {ops : FloatOps F}.

Variables (num_sources num_stations : Z).

(** X5: the kernel overwrites the entries [0 .. num_sources-1], one store
    each (in increasing order when the iterations are taken in the order of
    the text): what they held before does not matter; every other entry
    keeps its value.  With [num_sources <= 0] nothing is written. *)
Theorem cross_power_beam_overwrites (jones : Z -> complex2 F)
    (beam beam' : buffer (complex2 F)) :
  (forall j, 0 <= j < num_sources ->
     cells (oskar_evaluate_average_scalar_cross_power_beam_omp
              num_sources num_stations jones beam) j
     = cells (oskar_evaluate_average_scalar_cross_power_beam_omp
                num_sources num_stations jones beam') j) /\
  (forall j, ~ 0 <= j < num_sources ->
     cells (oskar_evaluate_average_scalar_cross_power_beam_omp
              num_sources num_stations jones beam) j
     = cells beam j) /\
  writes (oskar_evaluate_average_scalar_cross_power_beam_omp
            num_sources num_stations jones beam)
  = rev (indices_from 0 (Z.to_nat num_sources)) ++ writes beam.
Proof.
  unfold oskar_evaluate_average_scalar_cross_power_beam_omp. cbv zeta.
  repeat apply conj.
  - intros j Hj. rewrite !for_loop_store_inside by exact Hj. reflexivity.
  - intros j Hj. rewrite for_loop_store_cells.
    destruct (0 <=? j) eqn:E1; destruct (j <? num_sources) eqn:E2;
      try reflexivity.
    apply Z.leb_le in E1. apply Z.ltb_lt in E2. lia.
  - rewrite (writes_store_loop (fun i => i)
               (fun i (_ : buffer (complex2 F)) =>
                  cross_power_at num_sources num_stations jones
                    (beam_norm num_stations) i)).
    rewrite map_id. replace (num_sources - 0) with num_sources by lia.
    reflexivity.
Qed.

(** X6: the entry of source [i] is computed from the Jones values of that
    source alone, one per station: two Jones arrays that agree at the
    indices [SP*num_sources + i] for [0 <= SP < num_stations] give the
    same entry [i]. *)
Theorem cross_power_beam_reads_one_column (jones jones' : Z -> complex2 F)
    (beam : buffer (complex2 F)) (i : Z) :
  0 <= i < num_sources ->
  (forall SP, 0 <= SP < num_stations ->
     jones (CInt.add (CInt.mul SP num_sources) i)
     = jones' (CInt.add (CInt.mul SP num_sources) i)) ->
  cells (oskar_evaluate_average_scalar_cross_power_beam_omp
           num_sources num_stations jones beam) i
  = cells (oskar_evaluate_average_scalar_cross_power_beam_omp
             num_sources num_stations jones' beam) i.
Proof.
  intros Hi Hcol.
  unfold oskar_evaluate_average_scalar_cross_power_beam_omp. cbv zeta.
  rewrite !for_loop_store_inside by exact Hi.
  unfold cross_power_at. cbv zeta.
  match goal with
  | |- mk2 (fmul (x ?L) _) _ = mk2 (fmul (x ?L') _) _ =>
      assert (Hloop : L = L')
  end.
  { apply for_loop_ext. intros SP val1 HSP.
    rewrite (Hcol SP HSP).
    match goal with
    | |- mk2 (fadd _ (x ?M)) _ = mk2 (fadd _ (x ?M')) _ =>
        assert (Hinner : M = M')
    end.
    { apply for_loop_ext. intros SQ val2 HSQ.
      rewrite (Hcol SQ ltac:(lia)). reflexivity. }
    rewrite Hinner. reflexivity. }
  rewrite Hloop. reflexivity.
Qed.

End BeamOutput.

(** ** The normalisation of the cross-power beam *)

Lemma beam_pairs_no_wrap (num_stations : Z) :
  2 <= num_stations <= 46341 ->
  CInt.mul num_stations (CInt.sub num_stations 1) = num_stations * (num_stations - 1).
Proof.
  intros Hn. unfold CInt.mul, CInt.sub.
  rewrite (@wrap_small (num_stations - 1))
    by (unfold CInt.in_range, CInt.INT_MIN, CInt.INT_MAX; lia).
  apply wrap_small. unfold CInt.in_range, CInt.INT_MIN, CInt.INT_MAX. nia.
Qed.

(** X12: over the real numbers and for 2 to 46341 stations, the norm
    turns the sum over the station pairs into their average: when all
    stations have the same Jones value [j] for source [i], entry [i] of
    the beam is [j * conj(j)], that is [x^2 + y^2] with imaginary part
    zero, whatever the number of stations. *)
Theorem cross_power_beam_uniform (num_sources num_stations : Z)
    (jones : Z -> complex2 R) (j : complex2 R) (beam : buffer (complex2 R)) (i : Z) :
  2 <= num_stations <= 46341 ->
  0 <= i < num_sources ->
  (forall SP, 0 <= SP < num_stations ->
     jones (CInt.add (CInt.mul SP num_sources) i) = j) ->
  cells (oskar_evaluate_average_scalar_cross_power_beam_omp
           num_sources num_stations jones beam) i
  = mk2 (x j * x j + y j * y j)%R 0%R.
Proof.
  intros Hn Hi Huni.
  unfold oskar_evaluate_average_scalar_cross_power_beam_omp. cbv zeta.
  rewrite for_loop_store_inside by exact Hi.
  unfold cross_power_at, beam_norm. cbv zeta.
  rewrite (beam_pairs_no_wrap Hn).
  set (power := (x j * x j + y j * y j)%R).
  set (pairs := fun k : Z =>
         (IZR k * IZR (num_stations - 1) - IZR k * (IZR k - 1) / 2)%R).
  match goal with
  | |- mk2 (fmul (x ?L) _) _ = _ => assert (Hloop : L = mk2 (pairs num_stations * power)%R 0%R)
  end.
  { apply (@for_loop_invariant_indexed _
             (fun k (v : complex2 R) => v = mk2 (pairs k * power)%R 0%R)).
    - lia.
    - unfold zero2, pairs. simpl. f_equal; lra.
    - intros SP val1 HSP Hval1. subst val1.
      rewrite (Huni SP HSP).
      match goal with
      | |- mk2 (fadd _ (x ?M)) _ = _ =>
          assert (Hinner : M = mk2 (IZR (num_stations - (SP + 1)) * power)%R 0%R)
      end.
      { apply (@for_loop_invariant_indexed _
                 (fun k (v : complex2 R) =>
                    v = mk2 (IZR (k - (SP + 1)) * power)%R 0%R)).
        - lia.
        - replace (SP + 1 - (SP + 1)) with 0 by lia.
          unfold zero2. simpl. f_equal; lra.
        - intros SQ val2 HSQ Hval2. subst val2.
          rewrite (Huni SQ ltac:(lia)).
          unfold OSKAR_MULTIPLY_ADD_COMPLEX_CONJUGATE, add2, mul2, conj2.
          cbn [x y]. unfold power. simpl.
          replace (SQ + 1 - (SP + 1)) with (SQ - (SP + 1) + 1) by lia.
          rewrite plus_IZR. simpl. f_equal; ring. }
      rewrite Hinner. cbn [x y]. unfold pairs. simpl.
      rewrite !plus_IZR, !minus_IZR. simpl. f_equal; [| lra].
      repeat rewrite plus_IZR. simpl. field. }
  rewrite Hloop. cbn [x y]. unfold pairs. simpl.
  rewrite mult_IZR, !minus_IZR. simpl.
  assert (H2 : (2 <= IZR num_stations)%R) by (apply IZR_le; lia).
  f_equal; field; lra.
Qed.

(** ** What the override of position errors changes, and what it keeps *)

Section StationInduction.

Variable F : Type.
Variable P : oskar_Station F -> Prop.

Hypothesis step :
  forall loc type n xsig ysig xwei ywei ch,
    match ch with Some cs => Forall P cs | None => True end ->
    P (mk_station loc type n xsig ysig xwei ywei ch).

(** Induction over a station tree: the children of a station satisfy the
    property before the station does. *)
Fixpoint station_induction (s : oskar_Station F) : P s :=
  match s with
  | mk_station loc type n xsig ysig xwei ywei ch =>
      @step loc type n xsig ysig xwei ywei ch
        (match ch return match ch with Some cs => Forall P cs | None => True end with
         | Some cs =>
             (fix children (l : list (oskar_Station F)) : Forall P l :=
                match l with
                | [] => Forall_nil P
                | c :: rest => @Forall_cons _ P c rest (station_induction c) (children rest)
                end) cs
         | None => I
         end)
  end.

End StationInduction.

Section ListSet.

Variable A : Type.

Lemma list_set_length (l : list A) (n : nat) (v : A) :
  length (list_set l n v) = length l.
Proof.
  revert n. induction l as [| h t IH]; intros n; [reflexivity |].
  destruct n as [| n]; cbn [list_set length]; [reflexivity |].
  rewrite IH. reflexivity.
Qed.

Lemma nth_list_set_same (l : list A) (n : nat) (v d : A) :
  (n < length l)%nat -> nth n (list_set l n v) d = v.
Proof.
  revert n. induction l as [| h t IH]; intros n Hn; [inversion Hn |].
  destruct n as [| n]; cbn [list_set nth]; [reflexivity |].
  apply IH. cbn [length] in Hn. lia.
Qed.

Lemma nth_list_set_other (l : list A) (n m : nat) (v d : A) :
  n <> m -> nth m (list_set l n v) d = nth m l d.
Proof.
  revert n m. induction l as [| h t IH]; intros n m Hnm; [reflexivity |].
  destruct n as [| n]; destruct m as [| m]; cbn [list_set nth];
    try reflexivity; try lia.
  apply IH. lia.
Qed.

Lemma map_constant (B : Type) (v : B) (l l' : list A) :
  length l = length l' -> map (fun _ => v) l = map (fun _ => v) l'.
Proof.
  revert l'. induction l as [| h t IH]; intros [| h' t'] H;
    try reflexivity; try discriminate H.
  cbn [map]. f_equal. apply IH. cbn [length] in H. lia.
Qed.

End ListSet.

Section StationEffects.

Context {F : Type} {ops : FloatOps F} {env : StationEnv F}.

Local Open Scope fl_scope.

Lemma generator_after_next (g : rng) (k : nat) :
  generator_after g (S k) = snd (oskar_random_gaussian (generator_after g k)).
Proof. reflexivity. Qed.

(** The loop over the elements (lines 82-90 and 99-107): the generator is
    drawn from once per element; element [i] of the signal arrays becomes
    the weights coordinate plus the [i]-th offset scaled by the error; the
    elements from [n] on are not touched. *)
Lemma override_elements_result (n : Z) (err : F) (xs ys xw yw : list F) (g : rng) :
  0 <= n -> n <= Z.of_nat (length xs) -> n <= Z.of_nat (length ys) ->
  let r := override_elements n err xs ys xw yw g in
  snd r = generator_after g (Z.to_nat n) /\
  length (fst (fst r)) = length xs /\ length (snd (fst r)) = length ys /\
  (forall i d, (i < Z.to_nat n)%nat ->
     nth i (fst (fst r)) d
     = nth i xw (of_int 0) + fst (draw (generator_after g i)) * err /\
     nth i (snd (fst r)) d
     = nth i yw (of_int 0) + snd (draw (generator_after g i)) * err) /\
  (forall i d, (Z.to_nat n <= i)%nat ->
     nth i (fst (fst r)) d = nth i xs d /\ nth i (snd (fst r)) d = nth i ys d).
Proof.
  intros Hn Hxs Hys. cbv zeta. unfold override_elements.
  apply (@for_loop_invariant_indexed _
           (fun k (st : list F * list F * rng) =>
              snd st = generator_after g (Z.to_nat k) /\
              length (fst (fst st)) = length xs /\
              length (snd (fst st)) = length ys /\
              (forall i d, (i < Z.to_nat k)%nat ->
                 nth i (fst (fst st)) d
                 = nth i xw (of_int 0) + fst (draw (generator_after g i)) * err /\
                 nth i (snd (fst st)) d
                 = nth i yw (of_int 0) + snd (draw (generator_after g i)) * err) /\
              (forall i d, (Z.to_nat k <= i)%nat ->
                 nth i (fst (fst st)) d = nth i xs d /\
                 nth i (snd (fst st)) d = nth i ys d))).
  - exact Hn.
  - cbn [fst snd]. repeat apply conj; try reflexivity.
    + intros i d Hi. simpl in Hi. lia.
    + intros i d _. split; reflexivity.
  - intros k [[xs_k ys_k] g_k] Hk [Hg [Hlx [Hly [Hdone Hrest]]]].
    cbn [fst snd] in *. subst g_k.
    destruct (oskar_random_gaussian (generator_after g (Z.to_nat k)))
      as [[delta_x delta_y] g'] eqn:Edraw.
    cbn [fst snd].
    replace (Z.to_nat (k + 1)) with (S (Z.to_nat k)) by lia.
    repeat apply conj.
    + rewrite generator_after_next, Edraw. reflexivity.
    + rewrite list_set_length. exact Hlx.
    + rewrite list_set_length. exact Hly.
    + intros i d Hi.
      destruct (Nat.eq_dec i (Z.to_nat k)) as [-> | Hne].
      * rewrite !nth_list_set_same by lia.
        unfold draw. rewrite Edraw. cbn [fst snd]. split; reflexivity.
      * rewrite !nth_list_set_other by lia. apply Hdone. lia.
    + intros i d Hi. rewrite !nth_list_set_other by lia. apply Hrest. lia.
Qed.

Lemma override_elements_lengths (n : Z) (err : F) (xs ys xw yw : list F) (g : rng) :
  length (fst (fst (override_elements n err xs ys xw yw g))) = length xs /\
  length (snd (fst (override_elements n err xs ys xw yw g))) = length ys.
Proof.
  unfold override_elements.
  apply (for_loop_invariant
           (fun st : list F * list F * rng =>
              length (fst (fst st)) = length xs /\ length (snd (fst st)) = length ys)).
  - split; reflexivity.
  - intros k [[xs_k ys_k] g_k] _ [Hlx Hly].
    destruct (oskar_random_gaussian g_k) as [[delta_x delta_y] g'].
    cbn [fst snd] in *. rewrite !list_set_length. split; assumption.
Qed.

Lemma blank_mem_lengths (m : oskar_Mem F) (data : list F) :
  length data = length (mem_data m) ->
  blank_mem {| mem_type := mem_type m; mem_data := data |} = blank_mem m.
Proof.
  intros H. unfold blank_mem. cbn [mem_type mem_data].
  rewrite (@map_constant F F (of_int 0) data (mem_data m) H). reflexivity.
Qed.

Lemma visit_children_blank (err : F) (cs : list (oskar_Station F)) :
  Forall (fun c => forall status g,
            blank_signals (fst (fst (override_element_xy_position_errors c err status g)))
            = blank_signals c) cs ->
  forall n status g,
    map blank_signals
      (fst (fst (visit_children
                   (fun c => override_element_xy_position_errors c err) cs n status g)))
    = map blank_signals cs.
Proof.
  induction 1 as [| c rest Hc Hrest IH]; intros n status g; [reflexivity |].
  destruct n as [| n]; [reflexivity |].
  cbn [visit_children].
  destruct (override_element_xy_position_errors c err status g) as [[c' st1] g1] eqn:Ec.
  destruct (visit_children (fun c => override_element_xy_position_errors c err)
              rest n st1 g1) as [[rest' st2] g2] eqn:Er.
  cbn [fst snd map]. f_equal.
  - specialize (Hc status g). rewrite Ec in Hc. exact Hc.
  - specialize (IH n st1 g1). rewrite Er in IH. exact IH.
Qed.

(** X7: whatever the outcome, the call changes nothing but values inside
    signal arrays: the tree keeps its structure, every station its
    location, type, element count and weights arrays, and every signal
    array its type and length. *)
Theorem override_keeps_structure (s : oskar_Station F) (err : F) (status : Z) (g : rng) :
  blank_signals (fst (fst (override_element_xy_position_errors s err status g)))
  = blank_signals s.
Proof.
  revert status g. induction s as [loc type n xsig ysig xwei ywei ch IH]
    using station_induction.
  intros status g. cbn [override_element_xy_position_errors].
  destruct (negb (status =? 0)); [reflexivity |].
  destruct (negb (loc =? OSKAR_LOCATION_CPU)); [reflexivity |].
  destruct ch as [cs |].
  - pose proof (@visit_children_blank err cs IH (Z.to_nat n) status g) as Hcs.
    destruct (visit_children (fun c => override_element_xy_position_errors c err)
                cs (Z.to_nat n) status g) as [[cs' st'] g'].
    cbn [fst snd] in *. cbn [blank_signals]. rewrite Hcs. reflexivity.
  - destruct (type =? OSKAR_DOUBLE).
    + pose proof (override_elements_lengths n err (mem_data xsig) (mem_data ysig)
                    (mem_data xwei) (mem_data ywei) g) as [Hx Hy].
      destruct (override_elements n err (mem_data xsig) (mem_data ysig)
                  (mem_data xwei) (mem_data ywei) g) as [[xs ys] g'].
      cbn [fst snd] in *. cbn [blank_signals].
      rewrite (@blank_mem_lengths xsig xs Hx), (@blank_mem_lengths ysig ys Hy).
      reflexivity.
    + destruct (type =? OSKAR_SINGLE); [| reflexivity].
      pose proof (override_elements_lengths n err (mem_data xsig) (mem_data ysig)
                    (mem_data xwei) (mem_data ywei) g) as [Hx Hy].
      destruct (override_elements n err (mem_data xsig) (mem_data ysig)
                  (mem_data xwei) (mem_data ywei) g) as [[xs ys] g'].
      cbn [fst snd] in *. cbn [blank_signals].
      rewrite (@blank_mem_lengths xsig xs Hx), (@blank_mem_lengths ysig ys Hy).
      reflexivity.
Qed.

End StationEffects.

Section StationResults.

Context {F : Type} {ops : FloatOps F} {env : StationEnv F}.

Local Open Scope fl_scope.

(** The four fields of a leaf after the element loop, whichever of the two
    typed branches ran. *)
Lemma override_leaf_unfold (s : oskar_Station F) (err : F) (g : rng) :
  oskar_station_has_child s = false ->
  oskar_station_location s = OSKAR_LOCATION_CPU ->
  oskar_station_type s = OSKAR_DOUBLE \/ oskar_station_type s = OSKAR_SINGLE ->
  let r := override_element_xy_position_errors s err 0 g in
  let e := override_elements (num_elements s) err (mem_data (x_signal s))
             (mem_data (y_signal s)) (mem_data (x_weights s))
             (mem_data (y_weights s)) g in
  mem_data (x_signal (fst (fst r))) = fst (fst e) /\
  mem_data (y_signal (fst (fst r))) = snd (fst e) /\
  x_weights (fst (fst r)) = x_weights s /\
  y_weights (fst (fst r)) = y_weights s /\
  snd r = snd e.
Proof.
  intros Hleaf Hloc Htype. cbv zeta.
  destruct s as [loc type n xsig ysig xwei ywei ch].
  unfold oskar_station_has_child, oskar_station_location, oskar_station_type in *.
  cbn [location child element_type num_elements x_signal y_signal
       x_weights y_weights] in *.
  destruct ch as [cs |]; [discriminate Hleaf |].
  cbn [override_element_xy_position_errors].
  subst loc. change (0 =? 0) with true. rewrite Z.eqb_refl. cbn [negb].
  destruct (type =? OSKAR_DOUBLE) eqn:Ed.
  - destruct (override_elements n err (mem_data xsig) (mem_data ysig)
                (mem_data xwei) (mem_data ywei) g) as [[xs ys] g'].
    cbn. repeat split; reflexivity.
  - destruct (type =? OSKAR_SINGLE) eqn:Es.
    + destruct (override_elements n err (mem_data xsig) (mem_data ysig)
                  (mem_data xwei) (mem_data ywei) g) as [[xs ys] g'].
      cbn. repeat split; reflexivity.
    + apply Z.eqb_neq in Ed. apply Z.eqb_neq in Es. destruct Htype; contradiction.
Qed.

(** X8: at a leaf in CPU memory of type [OSKAR_DOUBLE], entered with
    status zero and holding at least [num_elements] elements,
    the generator is drawn from exactly [num_elements] times; element [i]
    of [x_signal] ([y_signal]) becomes element [i] of [x_weights]
    ([y_weights]) plus the [delta_x] ([delta_y]) of draw [i] times the
    error, whatever it held before; elements from [num_elements] on and the
    weights arrays are left as they were. *)
Theorem override_leaf_elements (s : oskar_Station F) (err : F) (g : rng) :
  oskar_station_has_child s = false ->
  oskar_station_location s = OSKAR_LOCATION_CPU ->
  oskar_station_type s = OSKAR_DOUBLE ->
  0 <= num_elements s ->
  num_elements s <= Z.of_nat (length (mem_data (x_signal s))) ->
  num_elements s <= Z.of_nat (length (mem_data (y_signal s))) ->
  let r := override_element_xy_position_errors s err 0 g in
  let s' := fst (fst r) in
  let n := Z.to_nat (num_elements s) in
  snd r = generator_after g n /\
  x_weights s' = x_weights s /\ y_weights s' = y_weights s /\
  (forall i d, (i < n)%nat ->
     nth i (mem_data (x_signal s')) d
     = nth i (mem_data (x_weights s)) (of_int 0)
       + fst (draw (generator_after g i)) * err /\
     nth i (mem_data (y_signal s')) d
     = nth i (mem_data (y_weights s)) (of_int 0)
       + snd (draw (generator_after g i)) * err) /\
  (forall i d, (n <= i)%nat ->
     nth i (mem_data (x_signal s')) d = nth i (mem_data (x_signal s)) d /\
     nth i (mem_data (y_signal s')) d = nth i (mem_data (y_signal s)) d).
Proof.
  intros Hleaf Hloc Htype Hn Hxs Hys. cbv zeta.
  destruct (@override_leaf_unfold s err g Hleaf Hloc (or_introl Htype))
    as [Ex [Ey [Ewx [Ewy Eg]]]].
  destruct (@override_elements_result F ops env (num_elements s) err
              (mem_data (x_signal s)) (mem_data (y_signal s))
              (mem_data (x_weights s)) (mem_data (y_weights s)) g Hn Hxs Hys)
    as [Rg [_ [_ [Rdone Rrest]]]].
  rewrite Ex, Ey, Eg. repeat apply conj.
  - exact Rg.
  - exact Ewx.
  - exact Ewy.
  - exact Rdone.
  - exact Rrest.
Qed.

(** X9: with an error of zero (over arithmetic where [v * 0 = 0] and
    [v + 0 = v]) the same call copies the weights coordinates into the
    signal coordinates: when the four arrays hold exactly [num_elements]
    elements, [x_signal] ends equal to [x_weights] and [y_signal] to
    [y_weights]. *)
Theorem override_zero_error_copies_weights (s : oskar_Station F) (g : rng) :
  (forall v : F, v * of_int 0 = of_int 0) ->
  (forall v : F, v + of_int 0 = v) ->
  oskar_station_has_child s = false ->
  oskar_station_location s = OSKAR_LOCATION_CPU ->
  oskar_station_type s = OSKAR_DOUBLE \/ oskar_station_type s = OSKAR_SINGLE ->
  num_elements s = Z.of_nat (length (mem_data (x_signal s))) ->
  num_elements s = Z.of_nat (length (mem_data (y_signal s))) ->
  num_elements s = Z.of_nat (length (mem_data (x_weights s))) ->
  num_elements s = Z.of_nat (length (mem_data (y_weights s))) ->
  let s' := fst (fst (override_element_xy_position_errors s (of_int 0) 0 g)) in
  mem_data (x_signal s') = mem_data (x_weights s) /\
  mem_data (y_signal s') = mem_data (y_weights s).
Proof.
  intros Hmul Hadd Hleaf Hloc Htype Lxs Lys Lxw Lyw. cbv zeta.
  destruct (@override_leaf_unfold s (of_int 0) g Hleaf Hloc Htype)
    as [Ex [Ey _]].
  destruct (@override_elements_result F ops env (num_elements s) (of_int 0)
              (mem_data (x_signal s)) (mem_data (y_signal s))
              (mem_data (x_weights s)) (mem_data (y_weights s)) g
              ltac:(lia) ltac:(lia) ltac:(lia))
    as [_ [Hlx [Hly [Rdone _]]]].
  rewrite Ex, Ey. split.
  - apply (nth_ext _ _ (of_int 0) (of_int 0)); [lia |].
    intros i Hi. destruct (Rdone i (of_int 0) ltac:(lia)) as [Hx _].
    rewrite Hx, Hmul, Hadd. reflexivity.
  - apply (nth_ext _ _ (of_int 0) (of_int 0)); [lia |].
    intros i Hi. destruct (Rdone i (of_int 0) ltac:(lia)) as [_ Hy].
    rewrite Hy, Hmul, Hadd. reflexivity.
Qed.

Lemma visit_children_success (err : F) (cs : list (oskar_Station F)) :
  Forall (fun c => forall status g,
            snd (fst (override_element_xy_position_errors c err status g)) = 0 ->
            status = 0 /\ reached_on_cpu c) cs ->
  forall n status g,
    snd (fst (visit_children
                (fun c => override_element_xy_position_errors c err) cs n status g)) = 0 ->
    status = 0 /\ first_children reached_on_cpu cs n.
Proof.
  induction 1 as [| c rest Hc Hrest IH]; intros n status g Hend.
  - destruct n; cbn in *; auto.
  - destruct n as [| n]; [cbn in *; auto |].
    cbn [visit_children] in Hend.
    destruct (override_element_xy_position_errors c err status g) as [[c' st1] g1] eqn:Ec.
    destruct (visit_children (fun c => override_element_xy_position_errors c err)
                rest n st1 g1) as [[rest' st2] g2] eqn:Er.
    cbn [fst snd] in Hend.
    specialize (IH n st1 g1). rewrite Er in IH. cbn [fst snd] in IH.
    destruct (IH Hend) as [Hst1 Hkids].
    specialize (Hc status g). rewrite Ec in Hc. cbn [fst snd] in Hc.
    destruct (Hc Hst1) as [Hst Hreach].
    cbn [first_children]. auto.
Qed.

(** X10: where [OSKAR_ERR_BAD_LOCATION] is not zero, a status of zero on
    return certifies that the status was zero on entry and that every
    station the traversal reaches, at any depth, is in CPU memory. *)
Theorem override_success_means_cpu (s : oskar_Station F) (err : F) (status : Z) (g : rng) :
  OSKAR_ERR_BAD_LOCATION <> 0 ->
  snd (fst (override_element_xy_position_errors s err status g)) = 0 ->
  status = 0 /\ reached_on_cpu s.
Proof.
  intros Hbad. revert status g.
  induction s as [loc type n xsig ysig xwei ywei ch IH] using station_induction.
  intros status g. cbn [override_element_xy_position_errors].
  destruct (status =? 0) eqn:Est; cbn [negb].
  2:{ cbn [fst snd]. intros E. apply Z.eqb_neq in Est. contradiction. }
  apply Z.eqb_eq in Est. subst status.
  destruct (loc =? OSKAR_LOCATION_CPU) eqn:Eloc; cbn [negb].
  2:{ cbn [fst snd]. intros E. contradiction. }
  apply Z.eqb_eq in Eloc. subst loc.
  destruct ch as [cs |].
  - pose proof (@visit_children_success err cs IH (Z.to_nat n) 0 g) as Hkids.
    destruct (visit_children (fun c => override_element_xy_position_errors c err)
                cs (Z.to_nat n) 0 g) as [[cs' st'] g'].
    cbn [fst snd] in *. intros E. destruct (Hkids E) as [_ Hreach].
    cbn [reached_on_cpu]. auto.
  - intros _. cbn [reached_on_cpu]. auto.
Qed.

End StationResults.

(** ** The further properties at sample inputs

    The scenario of three stations and two sources over the real numbers,
    the sample station trees, and the data of [FurtherSamples]. *)

Lemma gaussian_writes_in_order_witness :
  writes (oskar_correlate_gaussian_omp_d 2 3 Scenario.jones
            Scenario.ones Scenario.zeros Scenario.zeros Scenario.zeros
            Scenario.zeros Scenario.zeros Scenario.zeros Scenario.zeros Scenario.zeros
            Scenario.station_u Scenario.station_v 1%R 0%R Scenario.vis0)
  = [2; 1; 0] /\
  writes (oskar_correlate_gaussian_omp_f 2 3 Scenario.jones
            Scenario.ones Scenario.zeros Scenario.zeros Scenario.zeros
            Scenario.zeros Scenario.zeros Scenario.zeros Scenario.zeros Scenario.zeros
            Scenario.station_u Scenario.station_v 1%R 0%R Scenario.vis0)
  = [2; 1; 0].
Proof.
  destruct (@gaussian_writes_in_order R _ _ 2 3 Scenario.jones
              Scenario.ones Scenario.zeros Scenario.zeros Scenario.zeros
              Scenario.zeros Scenario.zeros Scenario.zeros Scenario.zeros Scenario.zeros
              Scenario.station_u Scenario.station_v 1%R 0%R Scenario.vis0)
    as [Hd [Hf _]].
  - lia.
  - split; [exact Hd | exact Hf].
Defined.

Lemma gaussian_output_cells_witness :
  cells (oskar_correlate_gaussian_omp_d 2 3 Scenario.jones
           Scenario.ones Scenario.zeros Scenario.zeros Scenario.zeros
           Scenario.zeros Scenario.zeros Scenario.zeros Scenario.zeros Scenario.zeros
           Scenario.station_u Scenario.station_v 1%R 0%R Scenario.vis0) 1
  = add4c zero4c
      (baseline_sum_d 2 Scenario.jones
         Scenario.ones Scenario.zeros Scenario.zeros Scenario.zeros
         Scenario.zeros Scenario.zeros Scenario.zeros Scenario.zeros Scenario.zeros
         Scenario.station_u Scenario.station_v 1%R 0%R 0 2) /\
  cells (oskar_correlate_gaussian_omp_d 2 3 Scenario.jones
           Scenario.ones Scenario.zeros Scenario.zeros Scenario.zeros
           Scenario.zeros Scenario.zeros Scenario.zeros Scenario.zeros Scenario.zeros
           Scenario.station_u Scenario.station_v 1%R 0%R Scenario.vis0) 3
  = zero4c.
Proof.
  destruct (@gaussian_output_cells R _ _ 2 3 Scenario.jones
              Scenario.ones Scenario.zeros Scenario.zeros Scenario.zeros
              Scenario.zeros Scenario.zeros Scenario.zeros Scenario.zeros Scenario.zeros
              Scenario.station_u Scenario.station_v 1%R 0%R Scenario.vis0)
    as [Hin Hout].
  - lia.
  - split.
    + destruct (Hin 0 2) as [Hd _]; [lia | lia | exact Hd].
    + destruct (Hout 3) as [Hd _]; [| exact Hd].
      change (total_baselines 3) with 3. lia.
Defined.

Lemma gaussian_batches_accumulate_witness :
  cells (oskar_correlate_gaussian_omp_d 1 3 Scenario.jones
           Scenario.flux Scenario.zeros Scenario.zeros Scenario.zeros
           Scenario.zeros Scenario.zeros Scenario.zeros Scenario.zeros Scenario.zeros
           Scenario.station_u Scenario.station_v 1%R 0%R
           (oskar_correlate_gaussian_omp_d 2 3 Scenario.jones
              Scenario.ones Scenario.zeros Scenario.zeros Scenario.zeros
              Scenario.zeros Scenario.zeros Scenario.zeros Scenario.zeros Scenario.zeros
              Scenario.station_u Scenario.station_v 1%R 0%R Scenario.vis0)) 2
  = add4c
      (add4c zero4c
         (baseline_sum_d 2 Scenario.jones
            Scenario.ones Scenario.zeros Scenario.zeros Scenario.zeros
            Scenario.zeros Scenario.zeros Scenario.zeros Scenario.zeros Scenario.zeros
            Scenario.station_u Scenario.station_v 1%R 0%R 1 2))
      (baseline_sum_d 1 Scenario.jones
         Scenario.flux Scenario.zeros Scenario.zeros Scenario.zeros
         Scenario.zeros Scenario.zeros Scenario.zeros Scenario.zeros Scenario.zeros
         Scenario.station_u Scenario.station_v 1%R 0%R 1 2).
Proof.
  apply (@gaussian_batches_accumulate R _ _ 3 2 1 Scenario.jones Scenario.jones
           Scenario.ones Scenario.zeros Scenario.zeros Scenario.zeros
           Scenario.zeros Scenario.zeros Scenario.zeros Scenario.zeros Scenario.zeros
           Scenario.flux Scenario.zeros Scenario.zeros Scenario.zeros
           Scenario.zeros Scenario.zeros Scenario.zeros Scenario.zeros Scenario.zeros
           Scenario.station_u Scenario.station_v Scenario.station_u Scenario.station_v
           1%R 0%R Scenario.vis0 1 2); lia.
Defined.

Lemma gaussian_reads_within_counts_witness :
  oskar_correlate_gaussian_omp_d 2 3 Scenario.jones
    Scenario.ones Scenario.zeros Scenario.zeros Scenario.zeros
    Scenario.zeros Scenario.zeros Scenario.zeros Scenario.zeros Scenario.zeros
    Scenario.station_u Scenario.station_v 1%R 0%R Scenario.vis0
  = oskar_correlate_gaussian_omp_d 2 3 Scenario.jones
      Scenario.ones Scenario.zeros Scenario.zeros Scenario.zeros
      Scenario.zeros Scenario.zeros Scenario.zeros Scenario.zeros Scenario.zeros
      FurtherSamples.station_u_beyond Scenario.station_v 1%R 0%R Scenario.vis0.
Proof.
  destruct (@gaussian_reads_within_counts R ExactReal.real_ops ExactReal.real_libm 3 2 Scenario.jones Scenario.jones
           Scenario.ones Scenario.zeros Scenario.zeros Scenario.zeros
           Scenario.zeros Scenario.zeros Scenario.zeros Scenario.zeros Scenario.zeros
           Scenario.ones Scenario.zeros Scenario.zeros Scenario.zeros
           Scenario.zeros Scenario.zeros Scenario.zeros Scenario.zeros Scenario.zeros
           Scenario.station_u Scenario.station_v
           FurtherSamples.station_u_beyond Scenario.station_v 1%R 0%R
           ltac:(intros s Hs k Hk; reflexivity)
           ltac:(intros k Hk; reflexivity) ltac:(intros k Hk; reflexivity)
           ltac:(intros k Hk; reflexivity) ltac:(intros k Hk; reflexivity)
           ltac:(intros k Hk; reflexivity) ltac:(intros k Hk; reflexivity)
           ltac:(intros k Hk; reflexivity) ltac:(intros k Hk; reflexivity)
           ltac:(intros k Hk; reflexivity)
           ltac:(intros k Hk;
                 unfold Scenario.station_u, FurtherSamples.station_u_beyond;
                 destruct (Z.leb_spec 0 k); [| lia];
                 destruct (Z.ltb_spec k 3); [| lia]; reflexivity)
           ltac:(intros k Hk; reflexivity)
           Scenario.vis0) as [Hd _].
  exact Hd.
Defined.

Lemma cross_power_beam_reads_one_column_witness :
  cells (oskar_evaluate_average_scalar_cross_power_beam_omp 2 2
           FurtherSamples.scalar_jones FurtherSamples.beam0) 0
  = cells (oskar_evaluate_average_scalar_cross_power_beam_omp 2 2
             FurtherSamples.scalar_jones_other FurtherSamples.beam0) 0.
Proof.
  apply (@cross_power_beam_reads_one_column R _ 2 2
           FurtherSamples.scalar_jones FurtherSamples.scalar_jones_other
           FurtherSamples.beam0 0).
  - lia.
  - intros SP HSP.
    assert (E : SP = 0 \/ SP = 1) by lia.
    destruct E as [-> | ->]; reflexivity.
Defined.

Lemma gaussian_translation_invariant_witness :
  oskar_correlate_gaussian_omp_d 2 3 Scenario.jones
    Scenario.ones Scenario.zeros Scenario.zeros Scenario.zeros
    Scenario.zeros Scenario.zeros Scenario.zeros Scenario.zeros Scenario.zeros
    (fun k => fadd (Scenario.station_u k) 5%R)
    (fun k => fadd (Scenario.station_v k) 7%R) 1%R 0%R Scenario.vis0
  = oskar_correlate_gaussian_omp_d 2 3 Scenario.jones
      Scenario.ones Scenario.zeros Scenario.zeros Scenario.zeros
      Scenario.zeros Scenario.zeros Scenario.zeros Scenario.zeros Scenario.zeros
      Scenario.station_u Scenario.station_v 1%R 0%R Scenario.vis0.
Proof.
  destruct (@gaussian_translation_invariant R ExactReal.real_ops ExactReal.real_libm 2 3 Scenario.jones
              Scenario.ones Scenario.zeros Scenario.zeros Scenario.zeros
              Scenario.zeros Scenario.zeros Scenario.zeros Scenario.zeros Scenario.zeros
              Scenario.station_u Scenario.station_v 1%R 0%R 5%R 7%R
              ltac:(intros u v w; simpl; lra) Scenario.vis0) as [Hd _].
  exact Hd.
Defined.

Lemma cross_power_beam_uniform_witness :
  cells (oskar_evaluate_average_scalar_cross_power_beam_omp 2 3
           FurtherSamples.uniform_jones FurtherSamples.beam0) 1
  = mk2 (3 * 3 + 4 * 4)%R 0%R.
Proof.
  apply (@cross_power_beam_uniform 2 3 FurtherSamples.uniform_jones
           (mk2 3%R 4%R) FurtherSamples.beam0 1).
  - lia.
  - lia.
  - intros SP HSP. reflexivity.
Defined.

Lemma override_leaf_elements_witness :
  snd (override_element_xy_position_errors cpu_leaf unit_error 0 0) = 4 /\
  mem_data (x_signal (fst (fst (override_element_xy_position_errors
                                  cpu_leaf unit_error 0 0))))
  = map Binary64.float_of_int [10; 22].
Proof.
  destruct (@override_leaf_elements float _ sample_env cpu_leaf unit_error 0)
    as [Hg _].
  - reflexivity.
  - reflexivity.
  - reflexivity.
  - simpl. lia.
  - simpl. lia.
  - simpl. lia.
  - split; [exact Hg | reflexivity].
Defined.

Lemma override_zero_error_copies_weights_witness :
  mem_data (x_signal (fst (fst (@override_element_xy_position_errors R _
                                  FurtherSamples.real_env
                                  FurtherSamples.real_leaf 0%R 0 0))))
  = [10%R; 20%R] /\
  mem_data (y_signal (fst (fst (@override_element_xy_position_errors R _
                                  FurtherSamples.real_env
                                  FurtherSamples.real_leaf 0%R 0 0))))
  = [30%R; 40%R].
Proof.
  destruct (@override_zero_error_copies_weights R _ FurtherSamples.real_env
              FurtherSamples.real_leaf 0) as [Hx Hy].
  - intros v. simpl. lra.
  - intros v. simpl. lra.
  - reflexivity.
  - reflexivity.
  - left. reflexivity.
  - reflexivity.
  - reflexivity.
  - reflexivity.
  - reflexivity.
  - split; [exact Hx | exact Hy].
Defined.

Lemma override_success_means_cpu_witness :
  reached_on_cpu (parent [cpu_leaf; cpu_leaf]).
Proof.
  destruct (@override_success_means_cpu float _ sample_env
              (parent [cpu_leaf; cpu_leaf]) unit_error 0 0) as [_ H].
  - discriminate.
  - reflexivity.
  - exact H.
Defined.
